(** * OnboardAI front end: upload, chat and settings pages

  A shallow embedding of the state-carrying code of the React front end
  (pages Upload, Chat and Settings, and the [api.ts] wrapper), followed
  by the properties of the specification that concern it.

  Conventions of the embedding.
  - A JavaScript string is a [string]: a sequence of 8-bit code units.
    [toLowerCase] and [trim] are written out for that range.
  - A JavaScript number that holds a count or a size is a [Z].
  - An object used as a dictionary ([{[key: string]: number}],
    [localStorage]) is a [gmap string _]; spreading such an object and
    adding a computed key is [insert].
  - A React state cell is a record field; [setX(v)] is a record update
    and [setX(prev => f prev)] applies [f] to the field's current value.
  - An [async] handler is a [Task]: the state reached at the first
    [await], the request that is in flight there, and the continuation
    that runs when the request settles. *)

From Stdlib Require Import ZArith Ascii String List Lia Bool.
From stdpp Require Import base option list strings pretty gmap.

Local Open Scope string_scope.
Local Open Scope list_scope.
Local Open Scope nat_scope.
Local Open Scope stdpp_scope.

(** ** JavaScript string primitives used by the pages *)

Module JsString.

(** [occurs c s]: the code unit [c] appears in [s]. *)
Fixpoint occurs (c : ascii) (s : string) : bool :=
  match s with
  | EmptyString => false
  | String d r => if Ascii.eqb d c then true else occurs c r
  end.

(** Prepend a code unit to the first piece of a split. *)
Definition cons_head (c : ascii) (l : list string) : list string :=
  match l with
  | [] => [String c EmptyString]
  | h :: t => String c h :: t
  end.

(** [s.split(sep)] for a separator of one code unit. The result is never
    empty: [''.split('.')] is [['']]. *)
Fixpoint split (sep : ascii) (s : string) : list string :=
  match s with
  | EmptyString => [EmptyString]
  | String c r =>
      if Ascii.eqb c sep then EmptyString :: split sep r
      else cons_head c (split sep r)
  end.

(** [arr.pop()]: the last element, [undefined] on an empty array. *)
Definition pop (l : list string) : option string := last l.

(** [toLowerCase] on one code unit: A-Z, and the upper-case letters of
    the Latin-1 block (0xC0-0xDE without the multiplication sign). *)
Definition toLowerCase_char (c : ascii) : ascii :=
  let n := N_of_ascii c in
  if ((65 <=? n) && (n <=? 90) ||
      (192 <=? n) && (n <=? 222) && negb (n =? 215))%N
  then ascii_of_N (n + 32) else c.

Fixpoint toLowerCase (s : string) : string :=
  match s with
  | EmptyString => EmptyString
  | String c r => String (toLowerCase_char c) (toLowerCase r)
  end.

(** [arr.join(sep)]. *)
Definition join (sep : string) (l : list string) : string :=
  String.concat sep l.

(** [arr.includes(x)] on an array of strings. *)
Definition includes (l : list string) (x : string) : bool :=
  bool_decide (x ∈ l).

(** White space removed by [trim], within the 8-bit range: TAB, LF, VT,
    FF, CR, SP and NBSP. *)
Definition is_space (c : ascii) : bool :=
  let n := N_of_ascii c in
  ((9 <=? n) && (n <=? 13) || (n =? 32) || (n =? 160))%N.

Fixpoint trimStart (s : string) : string :=
  match s with
  | EmptyString => EmptyString
  | String c r => if is_space c then trimStart r else s
  end.

(** [trimEnd] keeps a code unit when it is not white space or when
    something is kept after it. *)
Fixpoint trimEnd (s : string) : string :=
  match s with
  | EmptyString => EmptyString
  | String c r =>
      match trimEnd r with
      | EmptyString => if is_space c then EmptyString else String c EmptyString
      | r' => String c r'
      end
  end.

Definition trim (s : string) : string := trimEnd (trimStart s).

(** Truthiness of a string: the empty string is the only falsy one. *)
Definition truthy (s : string) : bool :=
  match s with EmptyString => false | _ => true end.

(** [s.startsWith(p)]. *)
Fixpoint startsWith (p s : string) : bool :=
  match p, s with
  | EmptyString, _ => true
  | String a p', String b s' => Ascii.eqb a b && startsWith p' s'
  | String _ _, EmptyString => false
  end.


(** [s.slice(n)] for [0 <= n]. *)
Fixpoint drop_units (n : nat) (s : string) : string :=
  match n, s with
  | O, _ => s
  | S n', String _ r => drop_units n' r
  | S _, EmptyString => EmptyString
  end.

(** [s.slice(0, n)] for [0 <= n]. *)
Fixpoint take_units (n : nat) (s : string) : string :=
  match n, s with
  | O, _ => EmptyString
  | S n', String c r => String c (take_units n' r)
  | S _, EmptyString => EmptyString
  end.

(** [s.slice(-n)] for [0 < n]: the last [n] code units, all of [s] when
    it is shorter. *)
Definition last_units (n : nat) (s : string) : string :=
  drop_units (String.length s - n) s.

(** [s.replace(pat, rep)] for a string pattern and a replacement without
    dollar sign: the first occurrence of [pat] is replaced. *)
Fixpoint replace (pat rep s : string) : string :=
  if startsWith pat s then rep +:+ drop_units (String.length pat) s
  else
    match s with
    | EmptyString => EmptyString
    | String c r => String c (replace pat rep r)
    end.

(** [c.repeat(n)] for a string of one code unit. *)
Fixpoint repeat_unit (c : ascii) (n : nat) : string :=
  match n with
  | O => EmptyString
  | S n' => String c (repeat_unit c n')
  end.

End JsString.

(** ** [JSON.stringify] and [JSON.parse]

  The two built-ins the chat page persists its transcript with, on the
  values a transcript is made of: [null], booleans, strings, arrays and
  objects (a transcript holds no number). [JObj] lists the members of an
  object in property order; the objects of this program have distinct
  keys, none of them an array index, so that order is also the order of
  the text. *)

Module Json.

#[warnings="-register-all"]
Inductive json : Type :=
| JNull
| JBool (b : bool)
| JStr (s : string)
| JArr (l : list json)
| JObj (members : list (string * json)).

Definition quote : ascii := "034"%char.
Definition backslash : ascii := "092"%char.

Definition chars (s : string) : list ascii := list_ascii_of_string s.

(** *** Printing *)

Definition hex_digit (n : N) : ascii :=
  if (n <? 10)%N then ascii_of_N (48 + n) else ascii_of_N (87 + n).

(** One code unit inside a string literal, as QuoteJSONString writes it:
    the short escapes, [\u00xx] for the other control characters, the
    code unit itself otherwise. *)
Definition escape_char (c : ascii) : list ascii :=
  match N_of_ascii c with
  | 8%N => [backslash; "b"%char]
  | 9%N => [backslash; "t"%char]
  | 10%N => [backslash; "n"%char]
  | 12%N => [backslash; "f"%char]
  | 13%N => [backslash; "r"%char]
  | 34%N => [backslash; quote]
  | 92%N => [backslash; backslash]
  | n =>
      if (n <? 32)%N then
        [backslash; "u"%char; "0"%char; "0"%char;
         hex_digit (n / 16); hex_digit (n mod 16)]
      else [c]
  end.

Fixpoint escape (s : string) : list ascii :=
  match s with
  | EmptyString => []
  | String c r => escape_char c ++ escape r
  end.

Definition quoted (s : string) : list ascii :=
  quote :: escape s ++ [quote].

(** Items separated by commas, no white space. *)
Fixpoint commas (items : list (list ascii)) : list ascii :=
  match items with
  | [] => []
  | [x] => x
  | x :: rest => x ++ ","%char :: commas rest
  end.

Fixpoint print (v : json) : list ascii :=
  match v with
  | JNull => chars "null"
  | JBool b => chars (if b then "true" else "false")
  | JStr s => quoted s
  | JArr l => "["%char :: commas (map print l) ++ ["]"%char]
  | JObj members =>
      "{"%char ::
      commas (map (fun kv => quoted (fst kv) ++ ":"%char :: print (snd kv))
                  members) ++
      ["}"%char]
  end.

Definition stringify (v : json) : string := string_of_list_ascii (print v).

(** *** Parsing *)

(** JSON white space: TAB, LF, CR, SP. *)
Definition is_ws (c : ascii) : bool :=
  match N_of_ascii c with
  | 9%N | 10%N | 13%N | 32%N => true
  | _ => false
  end.

Fixpoint skip_ws (s : list ascii) : list ascii :=
  match s with
  | [] => []
  | c :: r => if is_ws c then skip_ws r else s
  end.

Definition hex_value (c : ascii) : option N :=
  let n := N_of_ascii c in
  if ((48 <=? n) && (n <=? 57))%N then Some (n - 48)%N
  else if ((97 <=? n) && (n <=? 102))%N then Some (n - 87)%N
  else if ((65 <=? n) && (n <=? 70))%N then Some (n - 55)%N
  else None.

(** The code unit of [\uXXXX]; [None] also when it lies outside the
    8-bit range of the embedding. *)
Definition hex4 (h1 h2 h3 h4 : ascii) : option ascii :=
  match hex_value h1, hex_value h2, hex_value h3, hex_value h4 with
  | Some a, Some b, Some c, Some d =>
      let n := (((a * 16 + b) * 16 + c) * 16 + d)%N in
      if (n <? 256)%N then Some (ascii_of_N n) else None
  | _, _, _, _ => None
  end.

Definition simple_escape (e : ascii) : option ascii :=
  match N_of_ascii e with
  | 34%N => Some quote
  | 92%N => Some backslash
  | 47%N => Some "/"%char
  | 98%N => Some (ascii_of_N 8)
  | 102%N => Some (ascii_of_N 12)
  | 110%N => Some (ascii_of_N 10)
  | 114%N => Some (ascii_of_N 13)
  | 116%N => Some (ascii_of_N 9)
  | _ => None
  end.

Definition push (c : ascii) (r : option (string * list ascii)) :
  option (string * list ascii) :=
  match r with
  | Some (s, rest) => Some (String c s, rest)
  | None => None
  end.

(** The code units of a string literal, read after its opening quote;
    returns the string and what follows the closing quote. *)
Fixpoint parse_chars (s : list ascii) : option (string * list ascii) :=
  match s with
  | [] => None
  | c :: r =>
      if Ascii.eqb c quote then Some (EmptyString, r)
      else if Ascii.eqb c backslash then
        match r with
        | [] => None
        | e :: r1 =>
            if Ascii.eqb e "u"%char then
              match r1 with
              | h1 :: h2 :: h3 :: h4 :: r2 =>
                  match hex4 h1 h2 h3 h4 with
                  | Some d => push d (parse_chars r2)
                  | None => None
                  end
              | _ => None
              end
            else
              match simple_escape e with
              | Some d => push d (parse_chars r1)
              | None => None
              end
        end
      else if (N_of_ascii c <? 32)%N then None
      else push c (parse_chars r)
  end.

Fixpoint strip_prefix (p s : list ascii) : option (list ascii) :=
  match p, s with
  | [], _ => Some s
  | a :: p', b :: s' => if Ascii.eqb a b then strip_prefix p' s' else None
  | _ :: _, [] => None
  end.

Definition parse_literal (s : list ascii) : option (json * list ascii) :=
  match strip_prefix (chars "null") s with
  | Some r => Some (JNull, r)
  | None =>
      match strip_prefix (chars "true") s with
      | Some r => Some (JBool true, r)
      | None =>
          match strip_prefix (chars "false") s with
          | Some r => Some (JBool false, r)
          | None => None
          end
      end
  end.

(** Recursive descent; [fuel] bounds the nesting, and the length of the
    text is always enough (see [parse]). *)
Fixpoint parse_value (fuel : nat) (s : list ascii) {struct fuel} :
  option (json * list ascii) :=
  match fuel with
  | O => None
  | S fuel' =>
      match skip_ws s with
      | [] => None
      | c :: r =>
          if Ascii.eqb c quote then
            match parse_chars r with
            | Some (str, r') => Some (JStr str, r')
            | None => None
            end
          else if Ascii.eqb c "["%char then
            match skip_ws r with
            | [] => None
            | c' :: r' =>
                if Ascii.eqb c' "]"%char then Some (JArr [], r')
                else
                  match parse_elements fuel' (c' :: r') with
                  | Some (l, r'') => Some (JArr l, r'')
                  | None => None
                  end
            end
          else if Ascii.eqb c "{"%char then
            match skip_ws r with
            | [] => None
            | c' :: r' =>
                if Ascii.eqb c' "}"%char then Some (JObj [], r')
                else
                  match parse_members fuel' (c' :: r') with
                  | Some (m, r'') => Some (JObj m, r'')
                  | None => None
                  end
            end
          else parse_literal (c :: r)
      end
  end
with parse_elements (fuel : nat) (s : list ascii) {struct fuel} :
  option (list json * list ascii) :=
  match fuel with
  | O => None
  | S fuel' =>
      match parse_value fuel' s with
      | None => None
      | Some (v, r) =>
          match skip_ws r with
          | [] => None
          | c :: r' =>
              if Ascii.eqb c ","%char then
                match parse_elements fuel' r' with
                | Some (vs, r'') => Some (v :: vs, r'')
                | None => None
                end
              else if Ascii.eqb c "]"%char then Some ([v], r')
              else None
          end
      end
  end
with parse_members (fuel : nat) (s : list ascii) {struct fuel} :
  option (list (string * json) * list ascii) :=
  match fuel with
  | O => None
  | S fuel' =>
      match skip_ws s with
      | [] => None
      | q :: r0 =>
          if Ascii.eqb q quote then
            match parse_chars r0 with
            | None => None
            | Some (key, r1) =>
                match skip_ws r1 with
                | [] => None
                | colon :: r2 =>
                    if Ascii.eqb colon ":"%char then
                      match parse_value fuel' r2 with
                      | None => None
                      | Some (v, r3) =>
                          match skip_ws r3 with
                          | [] => None
                          | c :: r4 =>
                              if Ascii.eqb c ","%char then
                                match parse_members fuel' r4 with
                                | Some (ms, r5) => Some ((key, v) :: ms, r5)
                                | None => None
                                end
                              else if Ascii.eqb c "}"%char then
                                Some ([(key, v)], r4)
                              else None
                          end
                      end
                    else None
                end
            end
          else None
      end
  end.

(** Fuel that [parse_value] needs for the text of [v]. *)
Fixpoint need (v : json) : nat :=
  match v with
  | JArr l => S (list_sum (map (λ x, S (need x)) l))
  | JObj members => S (list_sum (map (λ kv, S (need (snd kv))) members))
  | _ => 1
  end.

(** The parser reads the text of [v] back, whatever follows it. *)
Definition parses_back (v : json) : Prop :=
  ∀ fuel rest, need v ≤ fuel → parse_value fuel (print v ++ rest) = Some (v, rest).

(** [JSON.parse]: one value, white space around it, nothing else;
    [None] stands for the SyntaxError. *)
Definition parse (text : string) : option json :=
  let s := chars text in
  match parse_value (S (length s)) s with
  | Some (v, r) =>
      match skip_ws r with
      | [] => Some v
      | _ :: _ => None
      end
  | None => None
  end.

End Json.

(** ** Suspended handlers *)

Module Async.

(** An [async] handler run up to its next [await]: it is finished in
    state [s], or it has issued the request [req], left the state [s]
    behind, and resumes with [k] on the response and on the state as it
    is when the response arrives. *)
Inductive Task (Req Resp St : Type) : Type :=
| Done (s : St)
| Await (req : Req) (s : St) (k : Resp → St → Task Req Resp St).

Arguments Done {Req Resp St} s.
Arguments Await {Req Resp St} req s k.

(** The state a task shows to the page. *)
Definition state_of {Req Resp St} (t : Task Req Resp St) : St :=
  match t with
  | Done s => s
  | Await _ s _ => s
  end.

(** The request in flight, if any. *)
Definition pending {Req Resp St} (t : Task Req Resp St) : option Req :=
  match t with
  | Done _ => None
  | Await req _ _ => Some req
  end.

(** Another handler changes the state while the task is suspended. *)
Definition interleave {Req Resp St} (f : St → St) (t : Task Req Resp St) :
  Task Req Resp St :=
  match t with
  | Done s => Done (f s)
  | Await req s k => Await req (f s) k
  end.

(** The request in flight settles with [r]. *)
Definition settle {Req Resp St} (r : Resp) (t : Task Req Resp St) :
  Task Req Resp St :=
  match t with
  | Done s => Done s
  | Await _ s k => k r s
  end.

End Async.

(** ** Upload page *)

Module Upload.
Import JsString Async.

(** The part of a browser [File] the page reads. *)
Record File := mkFile { name : string; size : Z }.

Definition MAX_FILE_SIZE : Z := 50 * 1024 * 1024.
Definition ALLOWED_TYPES : list string :=
  [".pdf"; ".docx"; ".md"; ".html"; ".txt"].

(** ['.' + file.name.split('.').pop()?.toLowerCase()]. *)
Definition extension (file : File) : string :=
  "." +:+ match pop (split "." (name file)) with
          | Some e => toLowerCase e
          | None => "undefined"
          end.

(** [validateFile]: [None] is the source's [null] (accepted), [Some r]
    the rejection message. *)
Definition validateFile (file : File) : option string :=
  if (MAX_FILE_SIZE <? size file)%Z then
    Some "File size exceeds 50MB limit."
  else if negb (includes ALLOWED_TYPES (extension file)) then
    Some ("Invalid file type. Allowed types: " +:+ join ", " ALLOWED_TYPES)
  else None.

(** Specification-side notion, in the words of the specification: [e] is
    the extension candidate of the name [nm] when [e] has no dot and is
    what follows the last dot of [nm], or all of [nm] when it has none. *)
Definition extension_candidate (nm e : string) : Prop :=
  occurs "." e = false ∧ (nm = e ∨ ∃ p, nm = p +:+ String "." e).

(** *** State of the page *)

Record Document := mkDocument {
  doc_name : string;
  path : string;
  chunks : Z;
  previews : list string
}.

(** The [useState] cells of the component. *)
Record State := mkState {
  files : list File;
  uploading : bool;
  message : string;
  uploadProgress : gmap string Z;
  chunksProcessed : gmap string Z;
  documents : list Document;
  loading : bool
}.

Definition setFiles (v : list File) (s : State) : State :=
  mkState v (uploading s) (message s) (uploadProgress s)
          (chunksProcessed s) (documents s) (loading s).
Definition setUploading (v : bool) (s : State) : State :=
  mkState (files s) v (message s) (uploadProgress s)
          (chunksProcessed s) (documents s) (loading s).
Definition setMessage (f : string → string) (s : State) : State :=
  mkState (files s) (uploading s) (f (message s)) (uploadProgress s)
          (chunksProcessed s) (documents s) (loading s).
Definition setUploadProgress (f : gmap string Z → gmap string Z)
  (s : State) : State :=
  mkState (files s) (uploading s) (message s) (f (uploadProgress s))
          (chunksProcessed s) (documents s) (loading s).
Definition setChunksProcessed (f : gmap string Z → gmap string Z)
  (s : State) : State :=
  mkState (files s) (uploading s) (message s) (uploadProgress s)
          (f (chunksProcessed s)) (documents s) (loading s).

Definition newline : string := String "010" EmptyString.

(** *** [handleFileChange] *)

(** The [forEach] over the selection: the accepted files, and one
    error line per rejected file. *)
Fixpoint partition_selection (selected : list File) :
  list File * list string :=
  match selected with
  | [] => ([], [])
  | file :: rest =>
      let '(validFiles, errors) := partition_selection rest in
      match validateFile file with
      | Some error => (validFiles, (name file +:+ ": " +:+ error) :: errors)
      | None => (file :: validFiles, errors)
      end
  end.

Definition handleFileChange (selected : list File) (s : State) : State :=
  let '(validFiles, errors) := partition_selection selected in
  let s1 :=
    match errors with
    | [] => s
    | _ :: _ => setMessage (λ _, join newline errors) s
    end in
  match errors, validFiles with
  | _ :: _, [] => s1
  | _, _ =>
      let s2 := setFiles validFiles s1 in
      let s3 :=
        match validFiles with
        | [] => s2
        | _ :: _ =>
            setMessage
              (λ _, match errors with
                    | [] => ""
                    | _ :: _ => "Some files will be skipped due to errors."
                    end) s2
        end in
      setChunksProcessed (λ _, ∅) s3
  end.

(** *** The upload call of [api.ts] *)

Record UploadResponse := mkUploadResponse {
  resp_chunks : Z;
  resp_message : string
}.

(** What the [catch] block reads of a rejected call: a response of the
    server with its [detail] and [message], a request that got no
    response, or a failure before the request was sent. *)
Inductive AxiosError : Type :=
| ErrResponse (detail message : option string)
| ErrRequest
| ErrSetup (message : string).

Inductive UploadResult : Type :=
| UploadOk (response : UploadResponse)
| UploadErr (error : AxiosError).

Record ProgressEvent := mkProgressEvent {
  loaded : Z;
  total : option Z
}.

(** [Math.round(a / b)] for [0 <= a] and [0 < b], the quotient taken
    exactly. The source divides in double precision: for [a <= 100 * b]
    and [b < 2^44] the nearest half-integer is further from the exact
    quotient than the rounding error of the division, and the two agree;
    for larger operands they can differ by one. *)
Definition Math_round_div (a b : Z) : Z := (2 * a + b) / (2 * b).

(** A call of [uploadDocument(file, onProgress)]. *)
Record UploadCall := mkUploadCall {
  call_file : File;
  onProgress : option (Z → State → State)
}.

(** The [onUploadProgress] handler [uploadDocument] installs: it calls
    [onProgress] when it was given and the event has a non-zero total. *)
Definition onUploadProgress (call : UploadCall) (progressEvent : ProgressEvent)
  (s : State) : State :=
  match onProgress call, total progressEvent with
  | Some callback, Some t =>
      if (t =? 0)%Z then s
      else callback (Math_round_div (loaded progressEvent * 100) t) s
  | _, _ => s
  end.

(** *** [handleUpload] *)

Definition or_else (o : option string) (default : string) : string :=
  match o with
  | Some v => if truthy v then v else default
  | None => default
  end.

(** The message the [catch] block computes. *)
Definition errorMessage (error : AxiosError) : string :=
  match error with
  | ErrResponse detail msg =>
      or_else detail (or_else msg "Error uploading file. Please try again.")
  | ErrRequest => "Server not responding. Please try again later."
  | ErrSetup msg => or_else (Some msg) "Error uploading file. Please try again."
  end.

(** The [finally] block. *)
Definition finally (s : State) : State :=
  setUploadProgress (λ _, ∅) (setUploading false s).

(** The statements after the loop, when no call failed. *)
Definition completed (s : State) : State :=
  setFiles [] (setMessage (λ _, "All files uploaded successfully!") s).

(** The [catch] block. *)
Definition aborted (error : AxiosError) (s : State) : State :=
  setMessage (λ _, errorMessage error) s.

(** The callback [handleUpload] passes for [file]. *)
Definition progress_callback (file : File) (progress : Z) (s : State) : State :=
  setUploadProgress (λ prev, <[name file := progress]> prev) s.

(** [uploadDocument(file, progress => ...)] as [handleUpload] calls it. *)
Definition call_of (file : File) : UploadCall :=
  mkUploadCall file (Some (progress_callback file)).

Definition UploadTask := Task UploadCall UploadResult State.

(** The [for] loop over the captured [files], with what follows it. *)
Fixpoint upload_loop (remaining : list File) (s : State) : UploadTask :=
  match remaining with
  | [] => Done (finally (completed s))
  | file :: rest =>
      Await
        (call_of file)
        (setMessage
           (λ prev, prev +:+ newline +:+ "Uploading " +:+ name file +:+ "...") s)
        (λ result s',
           match result with
           | UploadOk response =>
               upload_loop rest
                 (setChunksProcessed
                    (λ prev, <[name file := resp_chunks response]> prev) s')
           | UploadErr error => Done (finally (aborted error s'))
           end)
  end.

(** The four resets before the loop. *)
Definition batch_start (s : State) : State :=
  setChunksProcessed (λ _, ∅)
    (setUploadProgress (λ _, ∅)
       (setMessage (λ _, "") (setUploading true s))).

Definition handleUpload (s : State) : UploadTask :=
  match files s with
  | [] => Done s
  | _ :: _ => upload_loop (files s) (batch_start s)
  end.

(** *** Running a batch against the server *)

(** What the server and the transport do with one call: the progress
    events they deliver, then the result. *)
Record Outcome := mkOutcome {
  events : list ProgressEvent;
  result : UploadResult
}.

Inductive Event : Type :=
| Issued (file : File)
| Settled (file : File) (result : UploadResult).

(** Progress events reach the page while the call is in flight. *)
Definition deliver (evs : list ProgressEvent) (t : UploadTask) : UploadTask :=
  match t with
  | Done s => Done s
  | Await call s k =>
      Await call (fold_left (λ s ev, onUploadProgress call ev s) evs s) k
  end.

(** The handler runs alone: each call in flight receives its progress
    events and settles as the next outcome says. The run stops with the
    task finished, or suspended on a call for which no outcome is left
    (the call never settles). Returns the log of calls, the task, and the
    outcomes not used. *)
Fixpoint run (outcomes : list Outcome) (t : UploadTask) {struct outcomes} :
  list Event * UploadTask * list Outcome :=
  match t with
  | Done s => ([], Done s, outcomes)
  | Await call s k =>
      match outcomes with
      | [] => ([Issued (call_file call)], t, [])
      | o :: outcomes' =>
          let '(log, t', unused) :=
            run outcomes' (settle (result o) (deliver (events o) t)) in
          (Issued (call_file call) :: Settled (call_file call) (result o) :: log,
           t', unused)
      end
  end.

(** *** Notions the properties of a batch are stated with *)

#[global] Instance File_eq_dec : EqDecision File.
Proof. solve_decision. Defined.

(** The outcome of a call that succeeds. *)
Definition succeeds (o : list ProgressEvent * UploadResponse) : Outcome :=
  mkOutcome (fst o) (UploadOk (snd o)).

(** The outcome of a call that fails. *)
Definition fails (evs : list ProgressEvent) (error : AxiosError) : Outcome :=
  mkOutcome evs (UploadErr error).

(** The log of calls made one after the other, each settled before the
    next is issued. *)
Definition calls_log (calls : list (File * Outcome)) : list Event :=
  flat_map (λ c, [Issued (fst c); Settled (fst c) (result (snd c))]) calls.

(** A log in which no call is issued while another is in flight, and
    only the call in flight settles. *)
Fixpoint one_at_a_time (in_flight : option File) (log : list Event) : bool :=
  match log with
  | [] => true
  | Issued f :: rest =>
      match in_flight with
      | None => one_at_a_time (Some f) rest
      | Some _ => false
      end
  | Settled f _ :: rest =>
      match in_flight with
      | Some g => bool_decide (f = g) && one_at_a_time None rest
      | None => false
      end
  end.

Definition issued_files (log : list Event) : list File :=
  omap (λ e, match e with Issued f => Some f | Settled _ _ => None end) log.

(** The chunk counts recorded for a sequence of successful calls, a later
    file of the same name replacing an earlier one. *)
Definition recorded (calls : list (File * (list ProgressEvent * UploadResponse))) :
  gmap string Z :=
  fold_left (λ m c, <[name (fst c) := resp_chunks (snd (snd c))]> m) calls ∅.

(** The state after the call for [file] has delivered its events and
    succeeded. *)
Definition file_done (s : State)
  (c : File * (list ProgressEvent * UploadResponse)) : State :=
  setChunksProcessed
    (λ prev, <[name (fst c) := resp_chunks (snd (snd c))]> prev)
    (fold_left (λ s ev, onUploadProgress (call_of (fst c)) ev s) (fst (snd c))
       (setMessage
          (λ prev, prev +:+ newline +:+ "Uploading " +:+ name (fst c) +:+ "...")
          s)).

(** The percentage stored for [file] after each of the values its
    progress callback is called with, in arrival order. *)
Fixpoint progress_history (file : File) (values : list Z) (s : State) :
  list (option Z) :=
  match values with
  | [] => []
  | v :: rest =>
      let s' := progress_callback file v s in
      uploadProgress s' !! name file :: progress_history file rest s'
  end.

(** The same for the transfer events [uploadDocument] receives. *)
Fixpoint transfer_history (file : File) (evs : list ProgressEvent) (s : State) :
  list (option Z) :=
  match evs with
  | [] => []
  | ev :: rest =>
      let s' := onUploadProgress (call_of file) ev s in
      uploadProgress s' !! name file :: transfer_history file rest s'
  end.

(** A history of stored percentages in which no value is smaller than
    one stored before it. *)
Definition never_regresses (history : list (option Z)) : Prop :=
  ∀ (i j : nat) a b,
    (i ≤ j)%nat → history !! i = Some (Some a) → history !! j = Some (Some b) →
    (a ≤ b)%Z.

(** Values that arrive in non-decreasing order. *)
Definition nondecreasing (values : list Z) : Prop :=
  ∀ (i j : nat) a b,
    (i ≤ j)%nat → values !! i = Some a → values !! j = Some b → (a ≤ b)%Z.

(** *** The document list *)

Definition setDocuments (v : list Document) (s : State) : State :=
  mkState (files s) (uploading s) (message s) (uploadProgress s)
          (chunksProcessed s) v (loading s).
Definition setLoading (v : bool) (s : State) : State :=
  mkState (files s) (uploading s) (message s) (uploadProgress s)
          (chunksProcessed s) (documents s) v.

(** The cells as [useState] initializes them. *)
Definition initial : State := mkState [] false "" ∅ ∅ [] true.

(** The two calls of [api.ts] for the document list. *)
Inductive RegistryCall : Type :=
| ListDocuments
| DeleteDocument (documentPath : string).

(** A call is fulfilled, with the documents of [response.data.documents]
    (which only [loadDocuments] reads), or rejected. *)
Inductive RegistryResult : Type :=
| Fulfilled (listed : list Document)
| Rejected.

Definition RegistryTask := Task RegistryCall RegistryResult State.

(** What follows the [await] in [loadDocuments]: the rest of [try], or
    [catch], then [finally]. *)
Definition loadDocuments_resume (r : RegistryResult) (s : State) : RegistryTask :=
  Done (setLoading false
          match r with
          | Fulfilled listed => setDocuments listed s
          | Rejected => setMessage (λ _, "Failed to load documents") s
          end).

Definition loadDocuments (s : State) : RegistryTask :=
  Await ListDocuments (setLoading true s) loadDocuments_resume.

(** The [onClick] of the Delete button of [doc]; [confirmed] is the answer
    to [window.confirm]. After a fulfilled delete it calls [loadDocuments]
    as its last statement, without awaiting it. *)
Definition handleDelete (doc : Document) (confirmed : bool) (s : State) :
  RegistryTask :=
  if confirmed then
    Await (DeleteDocument (path doc)) s
      (λ r s',
         match r with
         | Fulfilled _ =>
             loadDocuments
               (setMessage (λ _, "Successfully deleted " +:+ doc_name doc) s')
         | Rejected =>
             Done (setMessage (λ _, "Error deleting " +:+ doc_name doc) s')
         end)
  else Done s.

(** The component mounts: the effect calls [loadDocuments]. *)
Definition mount : RegistryTask := loadDocuments initial.

(** The calls a task issues when it runs alone, each settling as the next
    result says; the run stops when the task is finished or no result is
    left. *)
Fixpoint run_registry (results : list RegistryResult) (t : RegistryTask)
  {struct results} : list RegistryCall * RegistryTask :=
  match t with
  | Done s => ([], Done s)
  | Await call s k =>
      match results with
      | [] => ([call], t)
      | r :: results' =>
          let '(calls, t') := run_registry results' (k r s) in
          (call :: calls, t')
      end
  end.

(** *** [formatFileSize] *)

(** [(num / den).toFixed(1)] in tenths: the integer nearest to ten times
    the quotient, the larger one at a tie. For [0 <= num < 2^53] and a
    divisor that is a power of two the quotient is exact in double
    precision and below 10^21, so this is the number [toFixed] prints,
    with all its digits; from 10^21 on [toFixed] prints an exponent. *)
Definition tenths (num den : Z) : Z := (20 * num + den) / (2 * den).

(** A number of tenths printed with one decimal. *)
Definition decimal1 (n : Z) : string :=
  pretty (n / 10)%Z +:+ "." +:+ pretty (n mod 10)%Z.

Definition formatFileSize (bytes : Z) : string :=
  if (bytes <? 1024)%Z then pretty bytes +:+ " B"
  else if (bytes <? 1024 * 1024)%Z then decimal1 (tenths bytes 1024) +:+ " KB"
  else decimal1 (tenths bytes (1024 * 1024)) +:+ " MB".

(** *** Selections followed by a batch *)

(** The user selects files any number of times, starting from the
    initial page. *)
Definition select_all (selections : list (list File)) (s : State) : State :=
  fold_left (λ s selected, handleFileChange selected s) selections s.

(** A file [validateFile] accepts. *)
Definition accepted (file : File) : Prop := validateFile file = None.

#[global] Instance accepted_dec (file : File) : Decision (accepted file).
Proof. unfold accepted. apply _. Defined.

(** The line [handleFileChange] reports for a rejected file. *)
Definition error_line (file : File) : option string :=
  (λ error, name file +:+ ": " +:+ error) <$> validateFile file.

(** *** The page and its handlers *)

(** The cells of the component, the upload calls in flight and the calls
    for the document list in flight, each with the continuation it
    resumes. *)
Record Page := mkPage {
  cells : State;
  uploads : list (UploadCall * (UploadResult → State → UploadTask));
  registry : list (RegistryCall * (RegistryResult → State → RegistryTask))
}.

(** What the user, or the network, can do to the page: the file input,
    the Upload button, a progress event or the settling of an upload call
    in flight, the Delete button of a document with the answer to
    [window.confirm], the settling of a call for the document list. *)
Inductive PageAction : Type :=
| SelectFiles (selected : list File)
| ClickUpload
| UploadProgresses (i : nat) (progressEvent : ProgressEvent)
| UploadSettles (i : nat) (r : UploadResult)
| ClickDelete (doc : Document) (confirmed : bool)
| RegistrySettles (i : nat) (r : RegistryResult).

Definition page_act (a : PageAction) (p : Page) : Page :=
  let s := cells p in
  match a with
  | SelectFiles selected =>
      mkPage (handleFileChange selected s) (uploads p) (registry p)
  | ClickUpload =>
      match handleUpload s with
      | Done s' => mkPage s' (uploads p) (registry p)
      | Await call s' k => mkPage s' (uploads p ++ [(call, k)]) (registry p)
      end
  | UploadProgresses i progressEvent =>
      match uploads p !! i with
      | Some (call, _) =>
          mkPage (onUploadProgress call progressEvent s) (uploads p) (registry p)
      | None => p
      end
  | UploadSettles i r =>
      match uploads p !! i with
      | Some (_, k) =>
          match k r s with
          | Done s' => mkPage s' (delete i (uploads p)) (registry p)
          | Await call' s' k' =>
              mkPage s' (<[i := (call', k')]> (uploads p)) (registry p)
          end
      | None => p
      end
  | ClickDelete doc confirmed =>
      match handleDelete doc confirmed s with
      | Done s' => mkPage s' (uploads p) (registry p)
      | Await call s' k => mkPage s' (uploads p) (registry p ++ [(call, k)])
      end
  | RegistrySettles i r =>
      match registry p !! i with
      | Some (_, k) =>
          match k r s with
          | Done s' => mkPage s' (uploads p) (delete i (registry p))
          | Await call' s' k' =>
              mkPage s' (uploads p) (<[i := (call', k')]> (registry p))
          end
      | None => p
      end
  end.

Definition page_run (acts : list PageAction) (p : Page) : Page :=
  fold_left (λ p a, page_act a p) acts p.

(** The page as the component mounts: the effect has called
    [loadDocuments]. *)
Definition page_mount : Page :=
  match mount with
  | Done s => mkPage s [] []
  | Await call s k => mkPage s [] [(call, k)]
  end.

(** A call for the document list as the handlers of the page issue it:
    the list call of [loadDocuments], or the delete call of a Delete
    button. *)
Definition issued_by_page
  (c : RegistryCall * (RegistryResult → State → RegistryTask)) : Prop :=
  c = (ListDocuments, loadDocuments_resume) ∨
  ∃ doc s, handleDelete doc true s = Await (fst c) s (snd c).

(** The actions that empty the chunk counts: a selection that is empty or
    has an accepted file, and Upload on a selection that is not empty. *)
Definition clears (a : PageAction) (p : Page) : bool :=
  match a with
  | SelectFiles selected =>
      bool_decide (selected = [] ∨ filter accepted selected ≠ [])
  | ClickUpload => bool_decide (files (cells p) ≠ [])
  | _ => false
  end.

(** None of the actions, taken one after the other, is one of these. *)
Fixpoint none_clears (acts : list PageAction) (p : Page) : bool :=
  match acts with
  | [] => true
  | a :: rest => negb (clears a p) && none_clears rest (page_act a p)
  end.

(** The chunk counts of [s] are retained: with no upload in flight, and
    whatever calls for the document list are, they stay as they are
    through any actions none of which is one of those that empty them. *)
Definition counts_retained (s : State) : Prop :=
  ∀ calls acts,
    Forall issued_by_page calls →
    none_clears acts (mkPage s [] calls) = true →
    chunksProcessed (cells (page_run acts (mkPage s [] calls))) =
    chunksProcessed s.

End Upload.

(** ** Chat page *)

Module Chat.
Import JsString Async Json.

(** *** Messages *)

Inductive Role : Type := user | assistant.
Inductive Feedback : Type := thumbsUp | thumbsDown.
Inductive SourcesType : Type := documents_type | web_type.

Record Citation := mkCitation {
  url : string;
  title : option string
}.

Record DocumentSource := mkDocumentSource {
  source : string;
  preview : string
}.

Record Sources := mkSources {
  type : SourcesType;
  documents : list DocumentSource;
  web : list Citation
}.

Record Message := mkMessage {
  role : Role;
  content : string;
  sources : option Sources;
  feedback : option Feedback
}.

(** An element of the [messages] array. Besides a message it can be what
    [handleFeedback] leaves when its index holds no object: the object
    [{feedback}] at the index, and empty slots before it. *)
Inductive Slot : Type :=
| Msg (m : Message)
| Bare (feedback : Feedback)
| Vacant.

#[global] Instance Role_eq_dec : EqDecision Role.
Proof. solve_decision. Defined.
#[global] Instance Feedback_eq_dec : EqDecision Feedback.
Proof. solve_decision. Defined.

(** *** The transcript as a JavaScript value *)

Definition role_to_js (r : Role) : json :=
  JStr match r with user => "user" | assistant => "assistant" end.

Definition feedback_to_js (f : Feedback) : json :=
  JStr match f with thumbsUp => "thumbsUp" | thumbsDown => "thumbsDown" end.

Definition type_to_js (t : SourcesType) : json :=
  JStr match t with documents_type => "documents" | web_type => "web" end.

(** An optional property: absent when [undefined]. *)
Definition optional {A} (key : string) (to_js : A → json) (o : option A) :
  list (string * json) :=
  match o with
  | Some a => [(key, to_js a)]
  | None => []
  end.

Definition citation_to_js (c : Citation) : json :=
  JObj (("url", JStr (url c)) :: optional "title" JStr (title c)).

Definition document_to_js (d : DocumentSource) : json :=
  JObj [("source", JStr (source d)); ("preview", JStr (preview d))].

Definition sources_to_js (x : Sources) : json :=
  JObj [("type", type_to_js (type x));
        ("documents", JArr (map document_to_js (documents x)));
        ("web", JArr (map citation_to_js (web x)))].

Definition message_to_js (m : Message) : json :=
  JObj (("role", role_to_js (role m)) ::
        ("content", JStr (content m)) ::
        optional "sources" sources_to_js (sources m) ++
        optional "feedback" feedback_to_js (feedback m)).

(** An empty slot is written as [null] by [JSON.stringify]. *)
Definition slot_to_js (x : Slot) : json :=
  match x with
  | Msg m => message_to_js m
  | Bare f => JObj [("feedback", feedback_to_js f)]
  | Vacant => JNull
  end.

Definition to_js (l : list Slot) : json := JArr (map slot_to_js l).

(** Reading a parsed value at the types of the interface. A property is
    looked up by its key; [None] means the value is not of the type. *)
Fixpoint property (key : string) (members : list (string * json)) :
  option json :=
  match members with
  | [] => None
  | (k, v) :: rest => if String.eqb k key then Some v else property key rest
  end.

Definition js_string (v : json) : option string :=
  match v with JStr s => Some s | _ => None end.

Definition js_role (v : json) : option Role :=
  match v with
  | JStr s =>
      if String.eqb s "user" then Some user
      else if String.eqb s "assistant" then Some assistant
      else None
  | _ => None
  end.

Definition js_feedback (v : json) : option Feedback :=
  match v with
  | JStr s =>
      if String.eqb s "thumbsUp" then Some thumbsUp
      else if String.eqb s "thumbsDown" then Some thumbsDown
      else None
  | _ => None
  end.

Definition js_type (v : json) : option SourcesType :=
  match v with
  | JStr s =>
      if String.eqb s "documents" then Some documents_type
      else if String.eqb s "web" then Some web_type
      else None
  | _ => None
  end.

(** An optional property: [Some None] when absent, [None] when present
    with a value that is not of the type. *)
Definition js_optional {A} (of_js : json → option A) (o : option json) :
  option (option A) :=
  match o with
  | None => Some None
  | Some v => match of_js v with Some a => Some (Some a) | None => None end
  end.

Definition js_array {A} (of_js : json → option A) (v : json) :
  option (list A) :=
  match v with
  | JArr l => mapM of_js l
  | _ => None
  end.

Definition js_citation (v : json) : option Citation :=
  match v with
  | JObj members =>
      u ← property "url" members ≫= js_string;
      t ← js_optional js_string (property "title" members);
      Some (mkCitation u t)
  | _ => None
  end.

Definition js_document (v : json) : option DocumentSource :=
  match v with
  | JObj members =>
      src ← property "source" members ≫= js_string;
      p ← property "preview" members ≫= js_string;
      Some (mkDocumentSource src p)
  | _ => None
  end.

Definition js_sources (v : json) : option Sources :=
  match v with
  | JObj members =>
      t ← property "type" members ≫= js_type;
      d ← property "documents" members ≫= js_array js_document;
      w ← property "web" members ≫= js_array js_citation;
      Some (mkSources t d w)
  | _ => None
  end.

Definition js_slot (v : json) : option Slot :=
  match v with
  | JObj members =>
      match property "role" members with
      | Some r =>
          r' ← js_role r;
          c ← property "content" members ≫= js_string;
          src ← js_optional js_sources (property "sources" members);
          fb ← js_optional js_feedback (property "feedback" members);
          Some (Msg (mkMessage r' c src fb))
      | None =>
          match property "content" members, property "sources" members with
          | None, None =>
              fb ← property "feedback" members ≫= js_feedback;
              Some (Bare fb)
          | _, _ => None
          end
      end
  | _ => None
  end.

Definition of_js (v : json) : option (list Slot) := js_array js_slot v.

(** *** State of the page *)

Record State := mkState {
  messages : list Slot;
  input : string;
  loading : bool;
  language : string;
  showFeedbackModal : bool;
  feedbackText : string;
  selectedMessageIndex : option nat;
  expandedSources : gmap nat bool
}.

Definition setMessages (f : list Slot → list Slot) (s : State) : State :=
  mkState (f (messages s)) (input s) (loading s) (language s)
          (showFeedbackModal s) (feedbackText s) (selectedMessageIndex s)
          (expandedSources s).
Definition setInput (v : string) (s : State) : State :=
  mkState (messages s) v (loading s) (language s)
          (showFeedbackModal s) (feedbackText s) (selectedMessageIndex s)
          (expandedSources s).
Definition setLoading (v : bool) (s : State) : State :=
  mkState (messages s) (input s) v (language s)
          (showFeedbackModal s) (feedbackText s) (selectedMessageIndex s)
          (expandedSources s).
Definition setLanguage (v : string) (s : State) : State :=
  mkState (messages s) (input s) (loading s) v
          (showFeedbackModal s) (feedbackText s) (selectedMessageIndex s)
          (expandedSources s).
Definition setShowFeedbackModal (v : bool) (s : State) : State :=
  mkState (messages s) (input s) (loading s) (language s)
          v (feedbackText s) (selectedMessageIndex s) (expandedSources s).
Definition setFeedbackText (f : string → string) (s : State) : State :=
  mkState (messages s) (input s) (loading s) (language s)
          (showFeedbackModal s) (f (feedbackText s)) (selectedMessageIndex s)
          (expandedSources s).
Definition setSelectedMessageIndex (v : option nat) (s : State) : State :=
  mkState (messages s) (input s) (loading s) (language s)
          (showFeedbackModal s) (feedbackText s) v (expandedSources s).
Definition setExpandedSources (f : gmap nat bool → gmap nat bool)
  (s : State) : State :=
  mkState (messages s) (input s) (loading s) (language s)
          (showFeedbackModal s) (feedbackText s) (selectedMessageIndex s)
          (f (expandedSources s)).

(** *** Persistence of the transcript *)

(** The [useEffect] on [messages]. *)
Definition persist (s : State) (ls : gmap string string) : gmap string string :=
  <["chatMessages" := stringify (to_js (messages s))]> ls.

(** The initializer of the [messages] cell. [None]: [JSON.parse] throws,
    or the saved value is not a transcript. *)
Definition restore (ls : gmap string string) : option (list Slot) :=
  match ls !! "chatMessages" with
  | Some savedMessages =>
      if truthy savedMessages then parse savedMessages ≫= of_js
      else Some []
  | None => Some []
  end.

(** *** [toggleSources] *)

Definition toggleSources (idx : nat) (s : State) : State :=
  setExpandedSources
    (λ prev, <[idx := negb (default false (prev !! idx))]> prev) s.

(** *** [handleSubmit] *)

Record ChatRequest := mkChatRequest {
  question : string;
  request_language : string
}.

(** What the [catch] block reads of a rejected call: the status and the
    [detail] of a response, or that there was none. *)
Inductive ChatError : Type :=
| ErrStatus (status : Z) (detail : option string)
| ErrNoResponse.

Inductive ChatResult : Type :=
| ChatOk (answer : string) (sources : option Sources)
| ChatErr (error : ChatError).

Definition ChatTask := Task ChatRequest ChatResult State.

Definition errorMessage (error : ChatError) : string :=
  match error with
  | ErrStatus status detail =>
      if (status =? 401)%Z then
        "Please add your API keys in the Settings page first."
      else
        match detail with
        | Some d =>
            if truthy d then d
            else "Sorry, I encountered an error. Please try again."
        | None => "Sorry, I encountered an error. Please try again."
        end
  | ErrNoResponse => "Sorry, I encountered an error. Please try again."
  end.

Definition user_message (question : string) : Message :=
  mkMessage user question None None.

(** The assistant message appended in the [try] or in the [catch]. *)
Definition reply (r : ChatResult) : Message :=
  match r with
  | ChatOk answer sources => mkMessage assistant answer sources None
  | ChatErr error => mkMessage assistant (errorMessage error) None None
  end.

(** What runs when the call settles, [finally] included. *)
Definition handleSubmit_resume (r : ChatResult) (s : State) : ChatTask :=
  Done (setLoading false (setMessages (λ prev, prev ++ [Msg (reply r)]) s)).

Definition handleSubmit (s : State) : ChatTask :=
  if negb (truthy (trim (input s))) || loading s then Done s
  else
    let question := trim (input s) in
    Await (mkChatRequest question (language s))
          (setMessages (λ prev, prev ++ [Msg (user_message question)])
             (setLoading true (setInput "" s)))
          handleSubmit_resume.

(** *** [handleFeedback] *)

(** [{...slot, feedback}]. *)
Definition with_feedback (fb : Feedback) (x : option Slot) : Slot :=
  match x with
  | Some (Msg m) => Msg (mkMessage (role m) (content m) (sources m) (Some fb))
  | Some (Bare _) | Some Vacant | None => Bare fb
  end.

(** [arr[i] = x] on a copy: in place within the array, and past its end
    the array grows, with empty slots up to [i]. *)
Definition assign (i : nat) (x : Slot) (arr : list Slot) : list Slot :=
  if decide (i < length arr) then <[i := x]> arr
  else arr ++ replicate (i - length arr) Vacant ++ [x].

Definition handleFeedback (messageIndex : nat) (fb : Feedback) (s : State) :
  State :=
  match fb with
  | thumbsUp =>
      setMessages
        (λ prev, assign messageIndex (with_feedback fb (prev !! messageIndex)) prev)
        s
  | thumbsDown => s
  end.

(** *** [handleClearChat], the feedback dialog *)

Definition handleClearChat (s : State) : State :=
  setExpandedSources (λ _, ∅) (setMessages (λ _, []) s).

Definition openFeedbackModal (idx : nat) (s : State) : State :=
  setShowFeedbackModal true (setSelectedMessageIndex (Some idx) s).

(** [handleFeedbackSubmit], and the Cancel button, which does the same. *)
Definition handleFeedbackSubmit (s : State) : State :=
  setSelectedMessageIndex None
    (setFeedbackText (λ _, "") (setShowFeedbackModal false s)).

(** *** The page in its environment *)

(** The component state, [localStorage], the calls in flight with the
    continuation each resumes, and the log of the calls issued. *)
Record World := mkWorld {
  state : State;
  storage : gmap string string;
  in_flight : list (ChatRequest * (ChatResult → State → ChatTask));
  issued : list ChatRequest
}.

(** What the user, or the network, can do to the page. *)
Inductive Action : Type :=
| ChangeInput (v : string)
| ChangeLanguage (v : string)
| SubmitForm
| Settles (i : nat) (r : ChatResult)
| ClickHelpful (idx : nat)
| ClickNotHelpful (idx : nat)
| ClickViewSources (idx : nat)
| ClickClearChat (confirmed : bool)
| EditFeedback (f : string → string)
| ClickSubmitFeedback
| ClickCancelFeedback.

Definition is_assistant (x : option Slot) : bool :=
  match x with
  | Some (Msg m) => bool_decide (role m = assistant)
  | _ => false
  end.

Definition has_sources (x : option Slot) : bool :=
  match x with
  | Some (Msg m) => bool_decide (role m = assistant) && bool_decide (is_Some (sources m))
  | _ => false
  end.

(** The conditions under which the view offers an action: the feedback
    buttons and the sources button exist only in the bubble of an
    assistant message, Clear Chat only for a non-empty transcript, the
    input is disabled while loading, the dialog buttons exist only while
    the dialog is shown; a call can settle only if it is in flight. *)
Definition enabled (a : Action) (w : World) : bool :=
  let s := state w in
  match a with
  | ChangeInput _ => negb (loading s)
  | ChangeLanguage _ => true
  | SubmitForm => true
  | Settles i _ => bool_decide (i < length (in_flight w))
  | ClickHelpful idx | ClickNotHelpful idx => is_assistant (messages s !! idx)
  | ClickViewSources idx => has_sources (messages s !! idx)
  | ClickClearChat _ => bool_decide (messages s ≠ [])
  | EditFeedback _ | ClickSubmitFeedback | ClickCancelFeedback =>
      showFeedbackModal s
  end.

Definition with_state (s : State) (w : World) : World :=
  mkWorld s (storage w) (in_flight w) (issued w).

(** A handler has replaced [messages]: the effect writes the transcript. *)
Definition commit (s : State) (w : World) : World :=
  mkWorld s (persist s (storage w)) (in_flight w) (issued w).

Definition act (a : Action) (w : World) : World :=
  let s := state w in
  match a with
  | ChangeInput v => with_state (setInput v s) w
  | ChangeLanguage v => with_state (setLanguage v s) w
  | SubmitForm =>
      match handleSubmit s with
      | Done s' => with_state s' w
      | Await req s' k =>
          mkWorld s' (persist s' (storage w))
                  (in_flight w ++ [(req, k)]) (issued w ++ [req])
      end
  | Settles i r =>
      match in_flight w !! i with
      | None => w
      | Some (_, k) =>
          match k r s with
          | Done s' =>
              mkWorld s' (persist s' (storage w))
                      (delete i (in_flight w)) (issued w)
          | Await req' s' k' =>
              mkWorld s' (persist s' (storage w))
                      (<[i := (req', k')]> (in_flight w)) (issued w ++ [req'])
          end
      end
  | ClickHelpful idx =>
      commit (handleFeedback idx thumbsUp s) w
  | ClickNotHelpful idx => with_state (openFeedbackModal idx s) w
  | ClickViewSources idx => with_state (toggleSources idx s) w
  | ClickClearChat true =>
      let s' := handleClearChat s in
      mkWorld s' (persist s' (delete "chatMessages" (storage w)))
              (in_flight w) (issued w)
  | ClickClearChat false => w
  | EditFeedback f => with_state (setFeedbackText f s) w
  | ClickSubmitFeedback | ClickCancelFeedback =>
      with_state (handleFeedbackSubmit s) w
  end.

(** The component mounts on a given [localStorage]: the cells take their
    initial values and the effect runs once. *)
Definition mount (ls : gmap string string) : option World :=
  match restore ls with
  | Some saved =>
      let s := mkState saved "" false "English" false "" None ∅ in
      Some (mkWorld s (persist s ls) [] [])
  | None => None
  end.

(** Worlds reached from [w] by actions the view offers. *)
Inductive reachable (w : World) : World → Prop :=
| reachable_refl : reachable w w
| reachable_step a w' :
    reachable w w' → enabled a w' = true → reachable w (act a w').


Definition run_actions (acts : list Action) (w : World) : World :=
  fold_left (λ w a, act a w) acts w.




(** A transcript with both kinds of sources, feedback, and text that
    needs escaping. *)
Definition sample_transcript : list Message :=
  [ mkMessage user "What is the refund policy?" None None;
    mkMessage assistant (String "034" "30 days" +:+ String "034" ", see the handbook.")
      (Some (mkSources documents_type
               [mkDocumentSource "docs/handbook.pdf" ("Refunds" +:+ String "010" EmptyString +:+ "within 30 days")]
               []))
      (Some thumbsUp);
    mkMessage user "And abroad?" None None;
    mkMessage assistant "See the web."
      (Some (mkSources web_type []
               [mkCitation "https://example.org/a" (Some "Refunds abroad");
                mkCitation "https://example.org/b" None]))
      None ].

(** No user message carries sources or feedback. *)
Definition user_messages_bare (l : list Slot) : Prop :=
  ∀ m, Msg m ∈ l → role m = user → sources m = None ∧ feedback m = None.

(** Every call in flight resumes [handleSubmit]. *)
Definition resumes_submit (w : World) : Prop :=
  Forall (λ c, snd c = handleSubmit_resume) (in_flight w).

(** *** The check boxes of the feedback dialog *)

Definition newline : string := String "010" EmptyString.




(** *** [handleDownloadChat]: the text of the export *)

(** The four pictographs of the export lie outside the 8-bit range of the
    embedding and are parameters. *)
Record Glyphs := mkGlyphs {
  person : string;
  robot : string;
  page : string;
  globe : string
}.

Definition separator : string :=
  newline +:+ "-------------------" +:+ newline +:+ newline.

Definition document_text (g : Glyphs) (doc : DocumentSource) : string :=
  page g +:+ " From: " +:+ source doc +:+ newline +:+ preview doc +:+ newline.

(** [citation.title || citation.url]. *)
Definition citation_text (g : Glyphs) (citation : Citation) : string :=
  globe g +:+ " " +:+
  match title citation with
  | Some t => if truthy t then t else url citation
  | None => url citation
  end +:+ newline.

Definition sources_text (g : Glyphs) (x : Sources) : string :=
  match type x with
  | documents_type =>
      newline +:+ "Sources:" +:+ newline +:+
      join "" (map (document_text g) (documents x))
  | web_type =>
      newline +:+ "Web References:" +:+ newline +:+
      join "" (map (citation_text g) (web x))
  end.

Definition message_text (g : Glyphs) (msg : Message) : string :=
  match role msg with
  | user => person g +:+ " You"
  | assistant => robot g +:+ " Assistant"
  end +:+ ": " +:+ content msg +:+ newline +:+
  match sources msg with
  | Some x => sources_text g x
  | None => ""
  end +:+ separator.

(** The text of one slot. An object with the feedback alone has no role
    and no content. [None] on an empty slot: the embedding does not tell
    a hole, which [map] skips, from [undefined], on which the callback
    throws. *)
Definition slot_text (g : Glyphs) (x : Slot) : option string :=
  match x with
  | Msg msg => Some (message_text g msg)
  | Bare _ =>
      Some (robot g +:+ " Assistant: undefined" +:+ newline +:+ separator)
  | Vacant => None
  end.

(** [chatContent]: what the file downloaded holds. *)
Definition chatContent (g : Glyphs) (s : State) : option string :=
  join "" <$> mapM (slot_text g) (messages s).

(** *** Notions the further properties are stated with *)

(** [localStorage] holds the text of the transcript in memory. *)
Definition synced (w : World) : Prop :=
  storage w !! "chatMessages" = Some (stringify (to_js (messages (state w)))).

(** The actions of the feedback dialog, the thumbs-down button included. *)
Definition dialog_action (a : Action) : bool :=
  match a with
  | ClickNotHelpful _ | EditFeedback _ | ClickSubmitFeedback
  | ClickCancelFeedback => true
  | _ => false
  end.

(** The flag the view reads for the sources of message [idx]. *)
Definition expanded (idx : nat) (s : State) : bool :=
  default false (expandedSources s !! idx).







End Chat.

(** ** Settings page *)

Module Settings.
Import JsString Async.

Record SavedKeys := mkSavedKeys {
  openAi : string;
  tavily : string
}.

(** The [useState] cells of the component. *)
Record State := mkState {
  openAiKey : string;
  tavilyKey : string;
  message : string;
  error : string;
  savedKeys : SavedKeys
}.

(** The component state and [localStorage], which [saveKeys] writes. The
    timers that blank [message] and [error] some seconds later are left
    out: they touch nothing else. *)
Record World := mkWorld {
  state : State;
  storage : gmap string string
}.

Definition setMessage (v : string) (s : State) : State :=
  mkState (openAiKey s) (tavilyKey s) v (error s) (savedKeys s).
Definition setError (v : string) (s : State) : State :=
  mkState (openAiKey s) (tavilyKey s) (message s) v (savedKeys s).
Definition setSavedKeys (v : SavedKeys) (s : State) : State :=
  mkState (openAiKey s) (tavilyKey s) (message s) (error s) v.

Definition with_state (f : State → State) (w : World) : World :=
  mkWorld (f (state w)) (storage w).

(** [localStorage.setItem]. *)
Definition setItem (key value : string) (w : World) : World :=
  mkWorld (state w) (<[key := value]> (storage w)).

(** The body of the POST to [/validate_keys]. *)
Record ValidateRequest := mkValidateRequest {
  openai_key : string;
  tavily_key : string
}.

(** What [response.json()] gives on an error response: an object with
    its [detail], or a rejection when the body is not JSON. *)
Inductive Body : Type :=
| BodyJson (detail : option string)
| BodyInvalid (reason : string).

(** What [fetch] gives: a rejection (network failure), or a response
    with its [ok] flag and body. *)
Inductive FetchResult : Type :=
| FetchFailed (reason : string)
| FetchResponse (ok : bool) (body : Body).

Definition SaveTask := Task ValidateRequest FetchResult World.

Definition or_else (v default : string) : string :=
  if truthy v then v else default.

(** The [catch] block, on the message of what was thrown. *)
Definition failed (err_message : string) (w : World) : World :=
  with_state
    (setError (or_else err_message "Failed to save API keys. Please try again."))
    w.

(** The statements after the validation call. [o] and [t] are the
    values of the two inputs when [saveKeys] was called. *)
Definition saveKeys_resume (o t : string) (r : FetchResult) (w : World) :
  SaveTask :=
  match r with
  | FetchFailed reason => Done (failed reason w)
  | FetchResponse false (BodyInvalid reason) => Done (failed reason w)
  | FetchResponse false (BodyJson detail) =>
      Done (failed (or_else (default "" detail) "Failed to validate API keys") w)
  | FetchResponse true _ =>
      Done
        (with_state
           (λ s, setMessage "API keys validated and saved successfully!"
                   (setSavedKeys (mkSavedKeys (trim o) (trim t)) s))
           (setItem "tavilyKey" (trim t) (setItem "openAiKey" (trim o) w)))
  end.

Definition saveKeys (w : World) : SaveTask :=
  let o := openAiKey (state w) in
  let t := tavilyKey (state w) in
  let w1 := with_state (λ s, setError "" (setMessage "" s)) w in
  if negb (truthy (trim o)) || negb (truthy (trim t)) then
    Done (with_state (setError "Please enter both API keys") w1)
  else
    Await (mkValidateRequest (trim o) (trim t)) w1 (saveKeys_resume o t).

(** The validation call succeeded: a response came, with [ok] set (a
    2xx status). *)
Definition succeeded (r : FetchResult) : bool :=
  match r with
  | FetchResponse true _ => true
  | _ => false
  end.

(** [localStorage] is written by someone else while the call is in
    flight. *)
Definition stored (ls : gmap string string) (w : World) : World :=
  mkWorld (state w) ls.

(** The persisted pair: both keys, or none. *)
Definition credentials (ls : gmap string string) : option (string * string) :=
  match ls !! "openAiKey", ls !! "tavilyKey" with
  | Some o, Some t => Some (o, t)
  | _, _ => None
  end.

(** Persisted credential state is whole: the two keys are both present
    or both absent. *)
Definition whole (ls : gmap string string) : Prop :=
  is_Some (ls !! "openAiKey") ↔ is_Some (ls !! "tavilyKey").

(** *** The rest of the page *)

Definition setOpenAiKey (v : string) (s : State) : State :=
  mkState v (tavilyKey s) (message s) (error s) (savedKeys s).
Definition setTavilyKey (v : string) (s : State) : State :=
  mkState (openAiKey s) v (message s) (error s) (savedKeys s).

(** [localStorage.getItem(key) || '']. *)
Definition getItem_or_empty (key : string) (ls : gmap string string) : string :=
  match ls !! key with
  | Some v => v
  | None => ""
  end.

(** The component mounts on a given [localStorage]: the cells take their
    initial values and the effect loads the saved keys. *)
Definition mount (ls : gmap string string) : World :=
  mkWorld
    (mkState "" "" "" ""
       (mkSavedKeys (getItem_or_empty "openAiKey" ls)
                    (getItem_or_empty "tavilyKey" ls)))
    ls.

(** [maskApiKey]. The bullet it repeats, U+2022, lies outside the 8-bit
    range of the embedding and is a parameter. *)
Definition maskApiKey (bullet : ascii) (key : string) : string :=
  if negb (truthy key) then ""
  else if String.length key <=? 7 then repeat_unit bullet (String.length key)
  else take_units 3 key +:+ "..." +:+ last_units 4 key.

End Settings.

(** ** The request interceptor of [api.ts] *)

Module Api.
Import JsString.

(** The interceptor, on [localStorage] and the headers of the request: a
    key is attached when it is stored and not empty. *)
Definition attach_keys (ls headers : gmap string string) : gmap string string :=
  let with_openai :=
    match ls !! "openAiKey" with
    | Some openAiKey =>
        if truthy openAiKey then <["X-OpenAI-Key" := openAiKey]> headers
        else headers
    | None => headers
    end in
  match ls !! "tavilyKey" with
  | Some tavilyKey =>
      if truthy tavilyKey then <["X-Tavily-Key" := tavilyKey]> with_openai
      else with_openai
  | None => with_openai
  end.

End Api.

(** * Properties *)

(** ** Splitting a name at its dots *)

Section SplitFacts.
Import JsString.
Variable sep : ascii.

Lemma append_cons c (s t : string) : String c s +:+ t = String c (s +:+ t).
Proof. reflexivity. Qed.

Lemma split_nonempty s : split sep s ≠ [].
Proof.
  destruct s as [|c r]; simpl; [discriminate|].
  destruct (Ascii.eqb c sep); [discriminate|].
  destruct (split sep r); discriminate.
Qed.

Lemma cons_head_app c l1 l2 :
  l1 ≠ [] → cons_head c (l1 ++ l2) = cons_head c l1 ++ l2.
Proof. destruct l1; [congruence | reflexivity]. Qed.

Lemma split_no_sep e : occurs sep e = false → split sep e = [e].
Proof.
  induction e as [|c r IH]; simpl; [reflexivity|].
  destruct (Ascii.eqb c sep); [discriminate|].
  intros H. rewrite (IH H). reflexivity.
Qed.

(** [(p + sep + e).split(sep)] is [p.split(sep)] followed by
    [e.split(sep)]. *)
Lemma split_app p e :
  split sep (p +:+ String sep e) = split sep p ++ split sep e.
Proof.
  induction p as [|c r IH].
  - change (EmptyString +:+ String sep e) with (String sep e).
    simpl. rewrite Ascii.eqb_refl. reflexivity.
  - rewrite append_cons. simpl.
    destruct (Ascii.eqb c sep).
    + rewrite IH. reflexivity.
    + rewrite IH. apply cons_head_app, split_nonempty.
Qed.

Lemma pop_split_suffix p e :
  occurs sep e = false → pop (split sep (p +:+ String sep e)) = Some e.
Proof.
  intros H. unfold pop. rewrite split_app, (split_no_sep e H).
  apply last_snoc.
Qed.

Lemma pop_split_whole e :
  occurs sep e = false → pop (split sep e) = Some e.
Proof. intros H. unfold pop. rewrite (split_no_sep e H). reflexivity. Qed.

(** What [pop] returns after [split]: a piece without separator that is
    the whole string or what follows its last separator. *)
Lemma pop_split_spec s :
  ∃ e, pop (split sep s) = Some e ∧ occurs sep e = false ∧
       (s = e ∨ ∃ p, s = p +:+ String sep e).
Proof.
  induction s as [|c r (e & Hpop & Hocc & Hshape)].
  - exists EmptyString. repeat split; auto.
  - destruct (Ascii.eqb_spec c sep) as [->|Hne].
    + exists e. split; [|split; [assumption|]].
      * destruct Hshape as [->|[p ->]].
        -- apply (pop_split_suffix EmptyString e Hocc).
        -- apply (pop_split_suffix (String sep p) e Hocc).
      * right. destruct Hshape as [->|[p ->]].
        -- exists EmptyString. reflexivity.
        -- exists (String sep p). reflexivity.
    + destruct Hshape as [->|[p ->]].
      * exists (String c e).
        assert (Ho : occurs sep (String c e) = false).
        { simpl. destruct (Ascii.eqb_spec c sep); [contradiction|assumption]. }
        split; [apply pop_split_whole, Ho|]. split; [exact Ho|]. now left.
      * exists e. split; [|split; [assumption|]].
        -- apply (pop_split_suffix (String c p) e Hocc).
        -- right. exists (String c p). reflexivity.
Qed.

End SplitFacts.

(** ** The validation gate *)

Section ValidationGate.
Import JsString.

Lemma extension_candidate_pop nm e :
  Upload.extension_candidate nm e → pop (split "." nm) = Some e.
Proof.
  intros [Hocc [->|[p ->]]].
  - by apply pop_split_whole.
  - by apply pop_split_suffix.
Qed.

Lemma extension_candidate_exists nm :
  ∃ e, Upload.extension_candidate nm e ∧ pop (split "." nm) = Some e.
Proof.
  destruct (pop_split_spec "." nm) as (e & Hpop & Hocc & Hshape).
  exists e. by repeat split.
Qed.

Lemma extension_candidate_unique nm e1 e2 :
  Upload.extension_candidate nm e1 → Upload.extension_candidate nm e2 → e1 = e2.
Proof.
  intros H1%extension_candidate_pop H2%extension_candidate_pop. congruence.
Qed.

Lemma dotted_allowed x :
  "." +:+ x ∈ Upload.ALLOWED_TYPES ↔ x ∈ ["pdf"; "docx"; "md"; "html"; "txt"].
Proof.
  unfold Upload.ALLOWED_TYPES. rewrite !elem_of_cons, !elem_of_nil.
  change ("." +:+ x) with (String "." x).
  split; intros H; repeat (destruct H as [H|H]); try contradiction;
    first [ injection H as -> | subst x ]; tauto.
Qed.

Lemma validateFile_None f :
  Upload.validateFile f = None ↔
  (Upload.size f ≤ 50 * 1024 * 1024)%Z ∧
  ∃ e, pop (split "." (Upload.name f)) = Some e ∧
       toLowerCase e ∈ ["pdf"; "docx"; "md"; "html"; "txt"].
Proof.
  unfold Upload.validateFile, Upload.extension, includes, Upload.MAX_FILE_SIZE.
  destruct (Z.ltb_spec (50 * 1024 * 1024) (Upload.size f)) as [Hbig|Hok].
  { split; [discriminate | intros [? _]; lia]. }
  destruct (pop_split_spec "." (Upload.name f)) as (e & -> & _).
  simpl. case_bool_decide as Hin; rewrite dotted_allowed in Hin; simpl.
  - split; [|done]. intros _. split; [lia|]. by exists e.
  - split; [discriminate|]. intros (_ & e' & [= <-] & Hin'). contradiction.
Qed.

(** C1. [validateFile] accepts a file exactly when its size is at most
    50 MiB and its lower-cased extension candidate (what follows the last
    dot of the name, the whole name when it has no dot) is one of pdf,
    docx, md, html, txt; a file that is not accepted gets one of the two
    rejection messages; and for a name without dot the whole lower-cased
    name decides. *)
Theorem validateFile_accepts_iff (f : Upload.File) :
  (Upload.validateFile f = None ↔
     (Upload.size f ≤ 50 * 1024 * 1024)%Z ∧
     ∃ e, Upload.extension_candidate (Upload.name f) e ∧
          toLowerCase e ∈ ["pdf"; "docx"; "md"; "html"; "txt"]) ∧
  (Upload.validateFile f = None ∨
   Upload.validateFile f = Some "File size exceeds 50MB limit." ∨
   Upload.validateFile f =
     Some "Invalid file type. Allowed types: .pdf, .docx, .md, .html, .txt") ∧
  (occurs "." (Upload.name f) = false →
     (Upload.validateFile f = None ↔
        (Upload.size f ≤ 50 * 1024 * 1024)%Z ∧
        toLowerCase (Upload.name f) ∈ ["pdf"; "docx"; "md"; "html"; "txt"])).
Proof.
  split; [|split].
  - rewrite validateFile_None. split.
    + intros (Hsz & e & Hpop & Hin). split; [done|].
      destruct (extension_candidate_exists (Upload.name f)) as (e' & Hc & Hpop').
      exists e'. split; [done|]. congruence.
    + intros (Hsz & e & Hc%extension_candidate_pop & Hin). eauto.
  - unfold Upload.validateFile.
    destruct (_ <? _)%Z; [by right; left|].
    destruct (negb _); [by right; right | by left].
  - intros Hocc. rewrite validateFile_None, (pop_split_whole _ _ Hocc).
    split.
    + by intros (Hsz & e & [= <-] & Hin).
    + intros [Hsz Hin]. eauto.
Qed.

Lemma validateFile_accepts_iff_witness :
  Upload.validateFile (Upload.mkFile "pdf" 1024) = None.
Proof.
  apply (proj2 (proj2 (validateFile_accepts_iff (Upload.mkFile "pdf" 1024)))).
  - reflexivity.
  - split; [simpl; lia|]. vm_compute. set_solver.
Defined.

Example validateFile_pdf :
  Upload.validateFile (Upload.mkFile "Handbook.v2.PDF" (10 * 1024 * 1024)) = None.
Proof. reflexivity. Qed.

Example validateFile_exe :
  Upload.validateFile (Upload.mkFile "b.exe" (1024 * 1024)) =
  Some "Invalid file type. Allowed types: .pdf, .docx, .md, .html, .txt".
Proof. reflexivity. Qed.

Example validateFile_too_big :
  Upload.validateFile (Upload.mkFile "a.pdf" (50 * 1024 * 1024 + 1)) =
  Some "File size exceeds 50MB limit.".
Proof. reflexivity. Qed.

End ValidationGate.

(** ** The upload batch *)

Section UploadBatch.
Import Async Upload.

(** Progress events change the progress map and nothing else. *)
Lemma onUploadProgress_frame file ev s :
  let s' := onUploadProgress (call_of file) ev s in
  files s' = files s ∧ uploading s' = uploading s ∧ message s' = message s ∧
  chunksProcessed s' = chunksProcessed s ∧ documents s' = documents s ∧
  loading s' = loading s.
Proof.
  unfold onUploadProgress; simpl.
  destruct (total ev) as [t|]; [|done].
  destruct (t =? 0)%Z; done.
Qed.

Lemma progress_events_frame file evs s :
  let s' := fold_left (λ s ev, onUploadProgress (call_of file) ev s) evs s in
  files s' = files s ∧ uploading s' = uploading s ∧ message s' = message s ∧
  chunksProcessed s' = chunksProcessed s ∧ documents s' = documents s ∧
  loading s' = loading s.
Proof.
  revert s. induction evs as [|ev evs IH]; intros s; simpl; [done|].
  destruct (IH (onUploadProgress (call_of file) ev s)) as (-> & -> & -> & -> & -> & ->).
  apply onUploadProgress_frame.
Qed.

Lemma file_done_chunks s c :
  chunksProcessed (file_done s c) =
  <[name (fst c) := resp_chunks (snd (snd c))]> (chunksProcessed s).
Proof.
  unfold file_done.
  set (s0 := setMessage _ s).
  pose proof (progress_events_frame (fst c) (fst (snd c)) s0) as (_ & _ & _ & H & _).
  simpl in *. by rewrite H.
Qed.

Lemma file_done_frame s c :
  files (file_done s c) = files s ∧ documents (file_done s c) = documents s ∧
  loading (file_done s c) = loading s ∧ uploading (file_done s c) = uploading s.
Proof.
  unfold file_done.
  set (s0 := setMessage _ s).
  pose proof (progress_events_frame (fst c) (fst (snd c)) s0)
    as (H1 & H2 & _ & _ & H3 & H4).
  simpl in *. by rewrite H1, H2, H3, H4.
Qed.

Lemma files_done_chunks calls s :
  chunksProcessed (fold_left file_done calls s) =
  fold_left (λ m c, <[name (fst c) := resp_chunks (snd (snd c))]> m) calls
            (chunksProcessed s).
Proof.
  revert s. induction calls as [|c calls IH]; intros s; simpl; [done|].
  by rewrite IH, file_done_chunks.
Qed.

Lemma files_done_frame calls s :
  files (fold_left file_done calls s) = files s ∧
  documents (fold_left file_done calls s) = documents s ∧
  loading (fold_left file_done calls s) = loading s ∧
  uploading (fold_left file_done calls s) = uploading s.
Proof.
  revert s. induction calls as [|c calls IH]; intros s; simpl; [done|].
  destruct (IH (file_done s c)) as (-> & -> & -> & ->). apply file_done_frame.
Qed.

(** Once recorded, a chunk count stays recorded while the batch goes on. *)
Lemma recorded_stays (calls : list (File * (list ProgressEvent * UploadResponse)))
  (m : gmap string Z) (n : string) :
  is_Some (m !! n) →
  is_Some (fold_left (λ m c, <[name (fst c) := resp_chunks (snd (snd c))]> m) calls m !! n).
Proof.
  revert m. induction calls as [|c calls IH]; intros m Hm; simpl; [done|].
  apply IH. destruct (decide (name (fst c) = n)) as [->|Hne].
  - rewrite lookup_insert_eq. eauto.
  - by rewrite lookup_insert_ne.
Qed.

Lemma recorded_all (calls : list (File * (list ProgressEvent * UploadResponse)))
  (m : gmap string Z) (c : File * (list ProgressEvent * UploadResponse)) :
  c ∈ calls →
  is_Some (fold_left (λ m c, <[name (fst c) := resp_chunks (snd (snd c))]> m) calls m
           !! name (fst c)).
Proof.
  revert m. induction calls as [|c' calls IH]; intros m Hin; simpl.
  - by apply elem_of_nil in Hin.
  - apply elem_of_cons in Hin as [->|Hin]; [|by apply IH].
    apply recorded_stays. rewrite lookup_insert_eq. eauto.
Qed.

(** The run of the loop over a prefix of files whose calls all succeed. *)
Lemma run_upload_loop_ok done_files oks rest env s :
  length oks = length done_files →
  run (map succeeds oks ++ env) (upload_loop (done_files ++ rest) s) =
  let '(log, t, unused) :=
    run env (upload_loop rest (fold_left file_done (zip done_files oks) s)) in
  (calls_log (zip done_files (map succeeds oks)) ++ log, t, unused).
Proof.
  revert oks s. induction done_files as [|f fs IH]; intros oks s Hlen.
  - destruct oks; [|done]. simpl. by destruct (run env _) as [[log t] u].
  - destruct oks as [|o oks]; [done|]. simpl in Hlen.
    simpl. rewrite IH by lia.
    destruct (run env _) as [[log t] u]. done.
Qed.

Lemma zip_partner {A B} (l : list A) (k : list B) (x : A) :
  length k = length l → x ∈ l → ∃ y, (x, y) ∈ zip l k.
Proof.
  revert k. induction l as [|a l IH]; intros k Hlen Hin.
  - by apply elem_of_nil in Hin.
  - destruct k as [|b k]; [done|]. simpl in Hlen.
    apply elem_of_cons in Hin as [->|Hin].
    + exists b. simpl. apply elem_of_cons. by left.
    + destruct (IH k ltac:(lia) Hin) as [y Hy].
      exists y. simpl. apply elem_of_cons. by right.
Qed.

Lemma issued_files_calls_log (fs : list File) (os : list Outcome) :
  length os = length fs → issued_files (calls_log (zip fs os)) = fs.
Proof.
  revert os. induction fs as [|f fs IH]; intros os Hlen; [done|].
  destruct os as [|o os]; [done|]. simpl in *.
  unfold issued_files in *. simpl. f_equal. apply IH. lia.
Qed.

Lemma one_at_a_time_calls_log calls : one_at_a_time None (calls_log calls) = true.
Proof.
  induction calls as [|c calls IH]; [done|].
  simpl. rewrite bool_decide_eq_true_2 by done. exact IH.
Qed.

Lemma handleUpload_nonempty s :
  files s ≠ [] → handleUpload s = upload_loop (files s) (batch_start s).
Proof. unfold handleUpload. by destruct (files s). Qed.

(** The call for [file] fails: the handler finishes at once. *)
Lemma run_upload_loop_fail file rest evs error more s :
  run (fails evs error :: more) (upload_loop (file :: rest) s) =
  ([Issued file; Settled file (UploadErr error)],
   Done (finally (aborted error
     (fold_left (λ s ev, onUploadProgress (call_of file) ev s) evs
        (setMessage
           (λ prev, prev +:+ newline +:+ "Uploading " +:+ name file +:+ "...") s)))),
   more).
Proof. simpl. by destruct more. Qed.

(** No count is recorded under a name that no call carried. *)
Lemma recorded_absent
  (calls : list (File * (list ProgressEvent * UploadResponse)))
  (m : gmap string Z) (n : string) :
  (∀ c, c ∈ calls → name (fst c) ≠ n) →
  fold_left (λ m c, <[name (fst c) := resp_chunks (snd (snd c))]> m) calls m !! n =
  m !! n.
Proof.
  revert m. induction calls as [|c calls IH]; intros m Hn; simpl; [done|].
  rewrite IH by (intros c' Hc'; apply Hn, elem_of_cons; by right).
  apply lookup_insert_ne, Hn, elem_of_cons. by left.
Qed.

(** C2, as the code has it. A batch whose call number k fails (the calls
    before it having succeeded): [handleUpload], running alone, finishes;
    every file before the failing one has a chunk count recorded, and the
    recorded counts are those of these calls; the calls issued are those
    for the files up to the failing one, in batch order, each settled
    before the next is issued; no call is issued for a later file and the
    outcomes meant for later calls are left unused. The failing file is
    not named: the message shown is the error message of the failing
    call, whatever the file, the lines naming the files being overwritten,
    and the selection is kept as it was. What the page keeps of the
    failure is the absence of a count: when the names of the batch are
    distinct, the files with a count are exactly those before the failing
    one. *)
Theorem handleUpload_fails_fast (s : State) (before after : list File)
  (failing : File) (oks : list (list ProgressEvent * UploadResponse))
  (evs : list ProgressEvent) (error : AxiosError) (more : list Outcome) :
  files s = before ++ failing :: after →
  length oks = length before →
  ∃ log s',
    run (map succeeds oks ++ fails evs error :: more) (handleUpload s) =
      (log, Done s', more) ∧
    (∀ f, f ∈ before → is_Some (chunksProcessed s' !! name f)) ∧
    chunksProcessed s' = recorded (zip before oks) ∧
    message s' = errorMessage error ∧
    last log = Some (Settled failing (UploadErr error)) ∧
    log = calls_log (zip (before ++ [failing])
                         (map succeeds oks ++ [fails evs error])) ∧
    issued_files log = before ++ [failing] ∧
    one_at_a_time None log = true ∧
    files s' = files s ∧
    (NoDup (map name (files s)) →
     ∀ (i : nat) f, files s !! i = Some f →
       (is_Some (chunksProcessed s' !! name f) ↔ i < length before)).
Proof.
  intros Hfiles Hlen.
  rewrite handleUpload_nonempty by (rewrite Hfiles; by destruct before).
  rewrite Hfiles, run_upload_loop_ok, run_upload_loop_fail by done.
  eexists _, _. split; [reflexivity|].
  assert (Hlog :
    calls_log (zip before (map succeeds oks)) ++
      [Issued failing; Settled failing (UploadErr error)] =
    calls_log (zip (before ++ [failing]) (map succeeds oks ++ [fails evs error]))).
  { rewrite zip_with_app by (by rewrite length_map).
    unfold calls_log. by rewrite flat_map_app. }
  set (s1 := fold_left file_done (zip before oks) (batch_start s)).
  set (s2 := setMessage _ s1).
  pose proof (progress_events_frame failing evs s2) as (Hkept & _ & _ & Hchunks & _).
  assert (Hrec : chunksProcessed (finally (aborted error
            (fold_left (λ s ev, onUploadProgress (call_of failing) ev s) evs s2))) =
          recorded (zip before oks)).
  { simpl in *. rewrite Hchunks. unfold s1. by rewrite files_done_chunks. }
  assert (Hbefore : ∀ f, f ∈ before →
            is_Some (recorded (zip before oks) !! name f)).
  { intros f Hf. destruct (zip_partner before oks f Hlen Hf) as [o Ho].
    apply (recorded_all _ ∅ (f, o) Ho). }
  split; [|split; [exact Hrec|split; [done|split; [|split; [exact Hlog|
    split; [|split; [|split]]]]]]].
  - intros f Hf. rewrite Hrec. by apply Hbefore.
  - by rewrite last_app.
  - rewrite Hlog. apply issued_files_calls_log.
    rewrite !length_app, length_map. simpl. lia.
  - rewrite Hlog. apply one_at_a_time_calls_log.
  - pose proof (files_done_frame (zip before oks) (batch_start s)) as (Hf1 & _).
    simpl in *. rewrite Hkept. unfold s1. by rewrite Hf1.
  - intros Hdup i f Hf. rewrite Hrec.
    rewrite fmap_app in Hdup. apply NoDup_app in Hdup as (_ & Hapart & _).
    destruct (decide (i < length before)) as [Hi|Hi].
    + split; [done|]. intros _. apply Hbefore.
      rewrite lookup_app_l in Hf by done. by eapply list_elem_of_lookup_2.
    + split; [|done]. intros Hsome. exfalso.
      rewrite lookup_app_r in Hf by lia.
      assert (Hlater : name f ∈ map name (failing :: after)).
      { apply list_elem_of_fmap. exists f. split; [done|].
        by eapply list_elem_of_lookup_2. }
      unfold recorded in Hsome. rewrite recorded_absent in Hsome.
      * rewrite lookup_empty in Hsome. by destruct Hsome.
      * intros [g o] Hc Hname. simpl in Hname.
        apply elem_of_zip_l in Hc.
        apply (Hapart (name f)); [|done].
        apply list_elem_of_fmap. by exists g.
Qed.

Lemma handleUpload_fails_fast_witness :
  ∃ log s',
    run [succeeds ([mkProgressEvent 512 (Some 1024%Z)], mkUploadResponse 7 "ok");
         fails [] ErrRequest;
         succeeds ([], mkUploadResponse 3 "ok")]
        (handleUpload
           (mkState [mkFile "a.pdf" 1024; mkFile "b.md" 10; mkFile "c.txt" 5]
                    false "" ∅ ∅ [] false)) =
      (log, Done s', [succeeds ([], mkUploadResponse 3 "ok")]) ∧
    chunksProcessed s' !! "a.pdf" = Some 7%Z ∧
    message s' = "Server not responding. Please try again later." ∧
    issued_files log = [mkFile "a.pdf" 1024; mkFile "b.md" 10].
Proof.
  destruct (handleUpload_fails_fast
    (mkState [mkFile "a.pdf" 1024; mkFile "b.md" 10; mkFile "c.txt" 5]
             false "" ∅ ∅ [] false)
    [mkFile "a.pdf" 1024] [mkFile "c.txt" 5] (mkFile "b.md" 10)
    [([mkProgressEvent 512 (Some 1024%Z)], mkUploadResponse 7 "ok")]
    [] ErrRequest [succeeds ([], mkUploadResponse 3 "ok")]
    eq_refl eq_refl) as (log & s' & Hrun & _ & Hrec & Hmsg & _ & _ & Hissued & _).
  exists log, s'. split; [exact Hrun|]. split; [|split; [exact Hmsg|exact Hissued]].
  rewrite Hrec. reflexivity.
Defined.

Lemma run_done outcomes s : run outcomes (Done s) = ([], Done s, outcomes).
Proof. by destruct outcomes. Qed.

(** All calls succeed: the final state of the batch. *)
Lemma run_completed s oks more :
  files s ≠ [] → length oks = length (files s) →
  run (map succeeds oks ++ more) (handleUpload s) =
  (calls_log (zip (files s) (map succeeds oks)),
   Done (finally (completed (fold_left file_done (zip (files s) oks) (batch_start s)))),
   more).
Proof.
  intros Hne Hlen. rewrite handleUpload_nonempty by done.
  rewrite <- (app_nil_r (files s)) at 1.
  rewrite run_upload_loop_ok by done. simpl upload_loop.
  by rewrite run_done, app_nil_r.
Qed.

(** The call after [before] fails: the final state of the batch. *)
Lemma run_aborted s before failing after oks evs error more :
  files s = before ++ failing :: after → length oks = length before →
  run (map succeeds oks ++ fails evs error :: more) (handleUpload s) =
  (calls_log (zip before (map succeeds oks)) ++
     [Issued failing; Settled failing (UploadErr error)],
   Done (finally (aborted error
     (fold_left (λ s ev, onUploadProgress (call_of failing) ev s) evs
        (setMessage
           (λ prev, prev +:+ newline +:+ "Uploading " +:+ name failing +:+ "...")
           (fold_left file_done (zip before oks) (batch_start s)))))),
   more).
Proof.
  intros Hfiles Hlen.
  rewrite handleUpload_nonempty by (rewrite Hfiles; by destruct before).
  by rewrite Hfiles, run_upload_loop_ok, run_upload_loop_fail.
Qed.

(** C2 as stated fails at "file k is reported as the failure": nothing
    the page holds when the batch has ended tells which file failed. The
    message is that of the error, and with two files of one name in the
    batch, a batch failing at the second and one failing at the third end
    in the same state. *)
Lemma failing_file_is_not_reported :
  ¬ ∃ reported : State → File,
      ∀ s before failing after oks evs error more log s',
        Forall accepted (files s) →
        files s = before ++ failing :: after → length oks = length before →
        run (map succeeds oks ++ fails evs error :: more) (handleUpload s) =
          (log, Done s', more) →
        reported s' = failing.
Proof.
  intros [reported H].
  set (s := mkState [mkFile "a.pdf" 1; mkFile "a.pdf" 2; mkFile "b.md" 3]
                    false "" ∅ ∅ [] false).
  assert (Hacc : Forall accepted (files s)).
  { repeat (constructor; [vm_compute; reflexivity|]). constructor. }
  pose proof (H s [mkFile "a.pdf" 1] (mkFile "a.pdf" 2) [mkFile "b.md" 3]
                [([], mkUploadResponse 7 "ok")] [] ErrRequest [] _ _
                Hacc eq_refl eq_refl
                (run_aborted s [mkFile "a.pdf" 1] (mkFile "a.pdf" 2)
                   [mkFile "b.md" 3] [([], mkUploadResponse 7 "ok")]
                   [] ErrRequest [] eq_refl eq_refl)) as Hsecond.
  pose proof (H s [mkFile "a.pdf" 1; mkFile "a.pdf" 2] (mkFile "b.md" 3) []
                [([], mkUploadResponse 7 "ok"); ([], mkUploadResponse 7 "ok")]
                [] ErrRequest [] _ _
                Hacc eq_refl eq_refl
                (run_aborted s [mkFile "a.pdf" 1; mkFile "a.pdf" 2]
                   (mkFile "b.md" 3) []
                   [([], mkUploadResponse 7 "ok"); ([], mkUploadResponse 7 "ok")]
                   [] ErrRequest [] eq_refl eq_refl)) as Hthird.
  assert (Hsame : mkFile "a.pdf" 2 = mkFile "b.md" 3).
  { rewrite <- Hsecond, <- Hthird. vm_compute. reflexivity. }
  discriminate Hsame.
Qed.

Lemma handleFileChange_resets selected s :
  fst (partition_selection selected) ≠ [] →
  chunksProcessed (handleFileChange selected s) = ∅.
Proof.
  unfold handleFileChange.
  destruct (partition_selection selected) as [validFiles errors]. simpl.
  intros Hne. destruct validFiles; [done|]. by destruct errors.
Qed.

(** *** Progress of the file in flight *)

(** The percentage stored after a callback is the value it reported. *)
Lemma progress_history_values file values s :
  progress_history file values s = map Some values.
Proof.
  revert s. induction values as [|v values IH]; intros s; simpl; [done|].
  by rewrite IH, lookup_insert_eq.
Qed.

(** C4, as the code has it. The handler stores each value its progress
    callback reports, as it is: the percentage stored for the file in
    flight is never smaller than one stored before whenever the values
    reported arrive in non-decreasing order. *)
Theorem progress_follows_reports (file : File) (values : list Z) (s : State) :
  nondecreasing values →
  progress_history file values s = map Some values ∧
  never_regresses (progress_history file values s).
Proof.
  intros Hmono. split; [apply progress_history_values|].
  rewrite progress_history_values. intros i j a b Hij Hi Hj.
  rewrite list_lookup_fmap in Hi, Hj.
  destruct (values !! i) as [a'|] eqn:Ei; [|done].
  destruct (values !! j) as [b'|] eqn:Ej; [|done].
  simpl in *. injection Hi as ->. injection Hj as ->. eauto.
Qed.

Lemma progress_follows_reports_witness :
  never_regresses
    (progress_history (mkFile "a.pdf" 1024) [0; 40; 40; 100]%Z
       (mkState [mkFile "a.pdf" 1024] true "" ∅ ∅ [] false)).
Proof.
  apply (progress_follows_reports (mkFile "a.pdf" 1024) [0; 40; 40; 100]%Z).
  intros i j a b Hij Hi Hj.
  destruct i as [|[|[|[|i]]]], j as [|[|[|[|j]]]]; simpl in *;
    simplify_eq; lia.
Defined.

(** C4 as stated fails: a smaller value reported later is stored. *)
Lemma progress_can_regress :
  ¬ (∀ file values s, never_regresses (progress_history file values s)).
Proof.
  intros H.
  specialize (H (mkFile "a.pdf" 1024) [50; 30]%Z
                (mkState [mkFile "a.pdf" 1024] true "" ∅ ∅ [] false)
                0%nat 1%nat 50%Z 30%Z).
  rewrite progress_history_values in H. simpl in H.
  specialize (H ltac:(lia) eq_refl eq_refl). lia.
Qed.

Lemma Math_round_div_mono a a' b :
  (0 < b)%Z → (a ≤ a')%Z → (Math_round_div a b ≤ Math_round_div a' b)%Z.
Proof. intros Hb Ha. unfold Math_round_div. apply Z.div_le_mono; lia. Qed.

Lemma transfer_history_values file evs t s :
  t ≠ 0%Z → Forall (λ ev, total ev = Some t) evs →
  transfer_history file evs s =
  map (λ ev, Some (Math_round_div (loaded ev * 100) t)) evs.
Proof.
  intros Ht Hall. revert s.
  induction Hall as [|ev evs Hev _ IH]; intros s; simpl; [done|].
  rewrite IH. unfold onUploadProgress. simpl. rewrite Hev.
  destruct (Z.eqb_spec t 0); [done|]. simpl. by rewrite lookup_insert_eq.
Qed.

(** What [uploadDocument] reports for a transfer whose byte count does
    not decrease, the total being fixed: the stored percentage does not
    regress. *)
Lemma transfer_never_regresses file evs t s :
  (0 < t)%Z → Forall (λ ev, total ev = Some t) evs →
  nondecreasing (map loaded evs) →
  never_regresses (transfer_history file evs s).
Proof.
  intros Ht Hall Hmono.
  rewrite (transfer_history_values file evs t s) by (lia || done).
  intros i j a b Hij Hi Hj. rewrite list_lookup_fmap in Hi, Hj.
  destruct (evs !! i) as [ei|] eqn:Ei; [|done].
  destruct (evs !! j) as [ej|] eqn:Ej; [|done].
  simpl in *. injection Hi as <-. injection Hj as <-.
  apply Math_round_div_mono; [done|].
  assert (loaded ei ≤ loaded ej)%Z; [|lia].
  apply (Hmono i j); [done| |]; by rewrite list_lookup_fmap, ?Ei, ?Ej.
Qed.

End UploadBatch.

(** ** Asking *)

Section Asking.
Import JsString Async Chat.

Lemma with_state_same w : with_state (state w) w = w.
Proof. by destruct w. Qed.

Lemma handleSubmit_blank s :
  trim (input s) = "" → handleSubmit s = Done s.
Proof. unfold handleSubmit. by intros ->. Qed.


Lemma handleSubmit_asks s :
  trim (input s) ≠ "" → loading s = false →
  handleSubmit s =
  Await (mkChatRequest (trim (input s)) (language s))
        (setMessages (λ prev, prev ++ [Msg (user_message (trim (input s)))])
           (setLoading true (setInput "" s)))
        handleSubmit_resume.
Proof.
  unfold handleSubmit. intros Hq ->.
  destruct (trim (input s)); [done|reflexivity].
Qed.

(** C10. With an input that is empty after trimming, [handleSubmit]
    returns at its guard: no request is issued, and the page is as
    before: same state (so same transcript), same [localStorage], same
    calls in flight and issued. *)
Theorem blank_submit_is_noop (w : World) :
  trim (input (state w)) = "" →
  handleSubmit (state w) = Done (state w) ∧
  pending (handleSubmit (state w)) = None ∧
  act SubmitForm w = w.
Proof.
  intros Hblank. rewrite (handleSubmit_blank _ Hblank).
  split; [done|]. split; [done|].
  unfold act. rewrite (handleSubmit_blank _ Hblank). apply with_state_same.
Qed.

Lemma blank_submit_is_noop_witness :
  act SubmitForm
      (mkWorld (mkState [Msg (user_message "hi")] "   " false "English"
                        false "" None ∅) ∅ [] []) =
  mkWorld (mkState [Msg (user_message "hi")] "   " false "English"
                   false "" None ∅) ∅ [] [].
Proof.
  apply (blank_submit_is_noop
           (mkWorld (mkState [Msg (user_message "hi")] "   " false "English"
                             false "" None ∅) ∅ [] [])).
  reflexivity.
Defined.














Example second_ask_is_rejected :
  let w := run_actions
             [ChangeInput "What is the refund policy?"; SubmitForm;
              ChangeInput "What is the refund policy?"; SubmitForm]
             (mkWorld (mkState [] "" false "English" false "" None ∅) ∅ [] []) in
  messages (state w) = [Msg (user_message "What is the refund policy?")] ∧
  issued w = [mkChatRequest "What is the refund policy?" "English"].
Proof. split; reflexivity. Qed.

End Asking.

(** ** Feedback *)

Section FeedbackFacts.
Import JsString Async Chat.

Lemma is_assistant_Some (l : list Slot) (idx : nat) :
  is_assistant (l !! idx) = true →
  ∃ m, l !! idx = Some (Msg m) ∧ role m = assistant.
Proof.
  unfold is_assistant. destruct (l !! idx) as [[m| |]|]; try discriminate.
  intros H%bool_decide_eq_true. eauto.
Qed.

Lemma assign_in_range i x (arr : list Slot) :
  i < length arr → assign i x arr = <[i := x]> arr.
Proof. intros H. unfold assign. by rewrite decide_True. Qed.

Lemma assign_past_end i x (arr : list Slot) :
  length arr ≤ i →
  assign i x arr = arr ++ replicate (i - length arr) Vacant ++ [x].
Proof. intros H. unfold assign. rewrite decide_False; [done|lia]. Qed.

Lemma assign_lookup i x (arr : list Slot) : assign i x arr !! i = Some x.
Proof.
  destruct (decide (i < length arr)) as [Hlt|Hge].
  - rewrite assign_in_range by done. by apply list_lookup_insert_eq.
  - rewrite assign_past_end by lia.
    rewrite lookup_app_r by lia.
    rewrite lookup_app_r by (rewrite length_replicate; lia).
    rewrite length_replicate. by rewrite Nat.sub_diag.
Qed.

Lemma assign_length_lt i x (arr : list Slot) : i < length (assign i x arr).
Proof. apply lookup_lt_Some with x, assign_lookup. Qed.

Lemma with_feedback_twice fb x :
  with_feedback fb (Some (with_feedback fb x)) = with_feedback fb x.
Proof. by destruct x as [[m| |]|]. Qed.

(** [thumbsUp] on a message: the message with its feedback set. *)
Lemma handleFeedback_thumbsUp s i m :
  messages s !! i = Some (Msg m) →
  messages (handleFeedback i thumbsUp s) =
  <[i := Msg (mkMessage (role m) (content m) (sources m) (Some thumbsUp))]>
    (messages s).
Proof.
  intros Hm. simpl. rewrite Hm. simpl.
  apply assign_in_range. by apply lookup_lt_Some in Hm.
Qed.

Lemma handleFeedback_idempotent s i v :
  handleFeedback i v (handleFeedback i v s) = handleFeedback i v s.
Proof.
  destruct v; [|done]. unfold handleFeedback, setMessages. simpl. f_equal.
  set (x := with_feedback thumbsUp (messages s !! i)).
  rewrite assign_lookup. unfold x at 1. rewrite with_feedback_twice. fold x.
  rewrite assign_in_range by apply assign_length_lt.
  apply list_insert_id, assign_lookup.
Qed.

(** C7, as the code has it. Annotating twice with the same value leaves
    the state of annotating once. [handleFeedback] records [thumbsUp]
    only: with [thumbsDown] it leaves the state as it is. So on a message
    a later [thumbsUp] is in effect whatever came before, and a
    [thumbsDown] that follows a [thumbsUp] leaves [thumbsUp] in effect. *)
Theorem feedback_idempotent_thumbsUp_recorded
  (s : State) (i : nat) (v first : Feedback) (m : Message) :
  messages s !! i = Some (Msg m) → role m = assistant →
  handleFeedback i v (handleFeedback i v s) = handleFeedback i v s ∧
  handleFeedback i thumbsDown s = s ∧
  messages (handleFeedback i thumbsUp (handleFeedback i first s)) !! i =
    Some (Msg (mkMessage (role m) (content m) (sources m) (Some thumbsUp))) ∧
  messages (handleFeedback i thumbsDown (handleFeedback i thumbsUp s)) !! i =
    Some (Msg (mkMessage (role m) (content m) (sources m) (Some thumbsUp))).
Proof.
  intros Hm Hrole. pose proof (lookup_lt_Some _ _ _ Hm) as Hlt.
  split; [apply handleFeedback_idempotent|]. split; [done|].
  assert (Hup : messages (handleFeedback i thumbsUp s) !! i =
    Some (Msg (mkMessage (role m) (content m) (sources m) (Some thumbsUp)))).
  { rewrite (handleFeedback_thumbsUp s i m Hm). by apply list_lookup_insert_eq. }
  split; [|exact Hup].
  destruct first.
  - by rewrite handleFeedback_idempotent.
  - exact Hup.
Qed.

Lemma feedback_idempotent_thumbsUp_recorded_witness :
  messages
    (handleFeedback 1 thumbsDown
       (handleFeedback 1 thumbsUp
          (mkState [Msg (user_message "q"); Msg (mkMessage assistant "a" None None)]
                   "" false "English" false "" None ∅))) !! 1%nat =
  Some (Msg (mkMessage assistant "a" None (Some thumbsUp))).
Proof.
  apply (feedback_idempotent_thumbsUp_recorded
           (mkState [Msg (user_message "q"); Msg (mkMessage assistant "a" None None)]
                    "" false "English" false "" None ∅)
           1 thumbsUp thumbsUp (mkMessage assistant "a" None None));
    reflexivity.
Defined.

(** C7 as stated fails: after [thumbsUp] then [thumbsDown] on an
    assistant message, the later value is not in effect. *)
Lemma thumbsDown_does_not_overwrite :
  ¬ (∀ s i m v1 v2,
       messages s !! i = Some (Msg m) → role m = assistant → v1 ≠ v2 →
       ∃ m', messages (handleFeedback i v2 (handleFeedback i v1 s)) !! i =
               Some (Msg m') ∧
             feedback m' = Some v2).
Proof.
  intros H.
  destruct (H (mkState [Msg (mkMessage assistant "a" None None)]
                       "" false "English" false "" None ∅)
              0%nat (mkMessage assistant "a" None None) thumbsUp thumbsDown
              eq_refl eq_refl ltac:(discriminate)) as (m' & Hm' & Hfb).
  simpl in Hm'. injection Hm' as <-. discriminate Hfb.
Qed.

(** *** User messages *)

Lemma user_messages_bare_snoc l m :
  user_messages_bare l →
  (role m = user → sources m = None ∧ feedback m = None) →
  user_messages_bare (l ++ [Msg m]).
Proof.
  intros Hl Hm m' Hin Hrole. apply elem_of_app in Hin as [Hin|Hin].
  - by apply Hl.
  - apply list_elem_of_singleton in Hin. injection Hin as ->. by apply Hm.
Qed.

Lemma user_messages_bare_insert (l : list Slot) (i : nat) m :
  user_messages_bare l → role m = assistant →
  user_messages_bare (<[i := Msg m]> l).
Proof.
  intros Hl Hm m' Hin Hrole.
  apply list_elem_of_lookup in Hin as [j Hj].
  apply list_lookup_insert_Some in Hj as [(_ & Heq & _)|[_ Hj]].
  - injection Heq as ->. congruence.
  - apply Hl; [|done]. apply list_elem_of_lookup. eauto.
Qed.

(** An action the view offers keeps user messages bare. *)
Lemma act_keeps_user_messages_bare a w :
  enabled a w = true →
  user_messages_bare (messages (state w)) ∧ resumes_submit w →
  user_messages_bare (messages (state (act a w))) ∧ resumes_submit (act a w).
Proof.
  intros Hen [Hbare Hres]. destruct a; simpl in Hen; try done.
  - (* submitting *)
    unfold act, handleSubmit.
    destruct (negb _ || _); [done|]. simpl. split.
    + by apply user_messages_bare_snoc.
    + apply Forall_app. split; [done|]. by apply Forall_singleton.
  - (* a call settles *)
    unfold act. destruct (in_flight w !! i) as [[req k]|] eqn:Hi; [|done].
    pose proof (Forall_lookup_1 _ _ _ _ Hres Hi) as Hk. simpl in Hk. subst k.
    simpl. split.
    + apply user_messages_bare_snoc; [done|]. by destruct r.
    + by apply Forall_delete.
  - (* Helpful *)
    apply is_assistant_Some in Hen as (m & Hm & Hrole).
    split; [|done].
    change (messages (state (act (ClickHelpful idx) w)))
      with (messages (handleFeedback idx thumbsUp (state w))).
    rewrite (handleFeedback_thumbsUp _ _ _ Hm).
    by apply user_messages_bare_insert.
  - (* Clear Chat *)
    destruct confirmed; [|done]. split; [|done].
    intros m Hin. by apply elem_of_nil in Hin.
Qed.

(** C6, as the code has it. [handleSubmit] appends the user message
    without sources and without feedback. [handleFeedback] itself does
    not look at the role; it is the view that offers the feedback buttons
    on assistant messages only. So, with the actions the view offers, in
    every state reached from a transcript whose user messages carry
    neither field, no user message carries sources or feedback. *)
Theorem user_messages_stay_bare :
  (∀ s req s' k,
     handleSubmit s = Await req s' k →
     messages s' = messages s ++ [Msg (mkMessage user (question req) None None)]) ∧
  (∀ w idx,
     enabled (ClickHelpful idx) w = true →
     ∃ m, messages (state w) !! idx = Some (Msg m) ∧ role m = assistant) ∧
  (∀ w0 w,
     user_messages_bare (messages (state w0)) → resumes_submit w0 →
     reachable w0 w →
     user_messages_bare (messages (state w))).
Proof.
  split; [|split].
  - intros s req s' k. unfold handleSubmit.
    destruct (negb _ || _); [discriminate|]. intros [= <- <- _]. done.
  - intros w idx. apply is_assistant_Some.
  - intros w0 w Hbare Hres Hreach.
    enough (user_messages_bare (messages (state w)) ∧ resumes_submit w) by tauto.
    induction Hreach as [|a w' _ IH Hen]; [done|].
    by apply act_keeps_user_messages_bare.
Qed.

Lemma user_messages_stay_bare_witness :
  user_messages_bare
    (messages (state
      (act (ClickHelpful 1)
        (act (Settles 0 (ChatOk "It is 30 days." None))
          (act SubmitForm
            (act (ChangeInput "What is the refund policy?")
              (mkWorld (mkState [] "" false "English" false "" None ∅)
                       ∅ [] []))))))).
Proof.
  destruct user_messages_stay_bare as (_ & _ & H).
  apply (H (mkWorld (mkState [] "" false "English" false "" None ∅) ∅ [] [])).
  - intros m Hin. by apply elem_of_nil in Hin.
  - constructor.
  - repeat (apply reachable_step; [|reflexivity]). apply reachable_refl.
Defined.

(** C6 as stated fails: [handleFeedback] on the index of a user message
    does not leave the state unchanged. *)
Lemma handleFeedback_ignores_role :
  ¬ (∀ s idx fb,
       is_assistant (messages s !! idx) = false → handleFeedback idx fb s = s).
Proof.
  intros H.
  specialize (H (mkState [Msg (user_message "hi")]
                         "" false "English" false "" None ∅)
                0%nat thumbsUp eq_refl).
  discriminate H.
Qed.

Example handleFeedback_on_user_message :
  messages (handleFeedback 0 thumbsUp
              (mkState [Msg (user_message "hi")]
                       "" false "English" false "" None ∅)) =
  [Msg (mkMessage user "hi" None (Some thumbsUp))].
Proof. reflexivity. Qed.

Example handleFeedback_past_the_end :
  messages (handleFeedback 3 thumbsUp
              (mkState [Msg (user_message "hi")]
                       "" false "English" false "" None ∅)) =
  [Msg (user_message "hi"); Vacant; Vacant; Bare thumbsUp].
Proof. reflexivity. Qed.

End FeedbackFacts.

(** ** Saving the keys *)

Section SavingKeys.
Import JsString Async Settings.

Lemma whole_both (ls : gmap string string) o t :
  whole (<["tavilyKey" := t]> (<["openAiKey" := o]> ls)).
Proof.
  unfold whole. rewrite lookup_insert_eq.
  rewrite lookup_insert_ne by done. rewrite lookup_insert_eq.
  split; eauto.
Qed.

Lemma saveKeys_resume_storage o t r w :
  ∃ w', saveKeys_resume o t r w = Done w' ∧
        storage w' =
          if succeeded r
          then <["tavilyKey" := trim t]> (<["openAiKey" := trim o]> (storage w))
          else storage w.
Proof.
  destruct r as [reason|[|] [detail|reason]]; simpl; eauto.
Qed.

(** C8. [saveKeys] calls [/validate_keys] with the two trimmed keys (it
    makes no call when one of them is blank) and writes nothing before
    the call settles. When it settles the handler finishes; both keys
    are written, together, exactly when the call succeeded; on an error
    response or a network failure [localStorage] is as it was. Persisted
    credentials that were whole (both keys or none) stay whole. *)
Theorem saveKeys_all_or_nothing (w : World) (r : FetchResult)
  (ls : gmap string string) :
  let o := trim (openAiKey (state w)) in
  let t := trim (tavilyKey (state w)) in
  pending (saveKeys w) =
    (if truthy o && truthy t then Some (mkValidateRequest o t) else None) ∧
  storage (state_of (saveKeys w)) = storage w ∧
  ∃ w', settle r (interleave (stored ls) (saveKeys w)) = Done w' ∧
        storage w' =
          (if truthy o && truthy t && succeeded r
           then <["tavilyKey" := t]> (<["openAiKey" := o]> ls)
           else ls) ∧
        (whole ls → whole (storage w')) ∧
        (truthy o && truthy t && succeeded r = true →
         credentials (storage w') = Some (o, t)).
Proof.
  intros o t. unfold saveKeys. fold o t.
  destruct (truthy o) eqn:Ho; [destruct (truthy t) eqn:Ht|]; simpl.
  - split; [done|]. split; [done|].
    destruct (saveKeys_resume_storage (openAiKey (state w)) (tavilyKey (state w)) r
                (stored ls (with_state (λ s, setError "" (setMessage "" s)) w)))
      as (w' & -> & Hst).
    exists w'. split; [done|]. fold o t in Hst. simpl in Hst. rewrite Hst.
    split; [done|]. destruct (succeeded r).
    + split; [intros _; apply whole_both|]. intros _. unfold credentials.
      rewrite lookup_insert_ne by done. by rewrite !lookup_insert_eq.
    + split; [done|discriminate].
  - split; [done|]. split; [done|]. eexists. split; [done|]. simpl.
    split; [done|]. split; [done|discriminate].
  - split; [done|]. split; [done|]. eexists. split; [done|]. simpl.
    split; [done|]. split; [done|discriminate].
Qed.

Lemma saveKeys_all_or_nothing_witness :
  ∃ w', settle (FetchResponse false (BodyJson (Some "Invalid Tavily API key")))
          (interleave (stored {["openAiKey" := "sk-old"; "tavilyKey" := "tvly-old"]})
             (saveKeys
                (mkWorld (mkState " sk-new " "tvly-bad" "" ""
                                  (mkSavedKeys "sk-old" "tvly-old"))
                         {["openAiKey" := "sk-old"; "tavilyKey" := "tvly-old"]}))) =
        Done w' ∧
        whole (storage w').
Proof.
  destruct (saveKeys_all_or_nothing
    (mkWorld (mkState " sk-new " "tvly-bad" "" "" (mkSavedKeys "sk-old" "tvly-old"))
             {["openAiKey" := "sk-old"; "tavilyKey" := "tvly-old"]})
    (FetchResponse false (BodyJson (Some "Invalid Tavily API key")))
    {["openAiKey" := "sk-old"; "tavilyKey" := "tvly-old"]})
    as (_ & _ & w' & Hrun & _ & Hwhole & _).
  exists w'. split; [exact Hrun|]. apply Hwhole.
  unfold whole. split; intros _; vm_compute; eauto.
Defined.

Example saveKeys_rejected_keeps_pair :
  storage
    (state_of
       (settle (FetchResponse false (BodyJson (Some "Invalid Tavily API key")))
          (saveKeys
             (mkWorld (mkState " sk-new " "tvly-bad" "" ""
                               (mkSavedKeys "sk-old" "tvly-old"))
                      {["openAiKey" := "sk-old"; "tavilyKey" := "tvly-old"]})))) =
  {["openAiKey" := "sk-old"; "tavilyKey" := "tvly-old"]}.
Proof. reflexivity. Qed.

Example saveKeys_valid_writes_both :
  credentials
    (storage
       (state_of
          (settle (FetchResponse true (BodyJson None))
             (saveKeys
                (mkWorld (mkState " sk-new " "tvly-new" "" "" (mkSavedKeys "" ""))
                         ∅))))) =
  Some ("sk-new", "tvly-new").
Proof. vm_compute. reflexivity. Qed.

End SavingKeys.

(** ** [JSON.parse] after [JSON.stringify] *)

Section JsonRoundTrip.
Import Json.

Lemma json_induction (P : json → Prop) :
  P JNull → (∀ b, P (JBool b)) → (∀ s, P (JStr s)) →
  (∀ l, Forall P l → P (JArr l)) →
  (∀ members, Forall (λ kv, P (snd kv)) members → P (JObj members)) →
  ∀ v, P v.
Proof.
  intros Hnull Hbool Hstr Harr Hobj. fix IH 1. intros [|b|s|l|members].
  - exact Hnull.
  - apply Hbool.
  - apply Hstr.
  - apply Harr. induction l as [|v l IHl]; constructor; [apply IH|exact IHl].
  - apply Hobj. induction members as [|[k v] members IHm]; constructor;
      [apply IH|exact IHm].
Qed.

(** *** String literals *)

Lemma parse_chars_escape_char c rest :
  parse_chars (escape_char c ++ rest) = push c (parse_chars rest).
Proof. destruct c as [[] [] [] [] [] [] [] []]; reflexivity. Qed.

Lemma parse_chars_escape s rest :
  parse_chars (escape s ++ quote :: rest) = Some (s, rest).
Proof.
  induction s as [|c s IH]; [reflexivity|].
  simpl. rewrite <- app_assoc, parse_chars_escape_char, IH. reflexivity.
Qed.

Lemma quoted_app s rest : quoted s ++ rest = quote :: escape s ++ quote :: rest.
Proof. unfold quoted. simpl. by rewrite <- app_assoc. Qed.

Lemma member_app k (text rest : list ascii) :
  (quoted k ++ ":"%char :: text) ++ rest =
  quote :: escape k ++ quote :: ":"%char :: text ++ rest.
Proof. unfold quoted. simpl. by rewrite <- !app_assoc. Qed.

(** *** The equations of the parser on the shapes the printer writes *)

Lemma parse_value_string fuel r :
  parse_value (S fuel) (quote :: r) =
  match parse_chars r with
  | Some (str, r') => Some (JStr str, r')
  | None => None
  end.
Proof. reflexivity. Qed.

Lemma parse_value_array_empty fuel r :
  parse_value (S fuel) ("["%char :: "]"%char :: r) = Some (JArr [], r).
Proof. reflexivity. Qed.

Lemma parse_value_array fuel c r :
  is_ws c = false → Ascii.eqb c "]"%char = false →
  parse_value (S fuel) ("["%char :: c :: r) =
  match parse_elements fuel (c :: r) with
  | Some (l, r') => Some (JArr l, r')
  | None => None
  end.
Proof.
  intros Hws Hc. cbn [parse_value skip_ws].
  change (is_ws "["%char) with false. cbv iota.
  change (Ascii.eqb "["%char quote) with false.
  change (Ascii.eqb "["%char "["%char) with true. cbv iota.
  cbn [skip_ws]. by rewrite Hws, Hc.
Qed.

Lemma parse_value_object_empty fuel r :
  parse_value (S fuel) ("{"%char :: "}"%char :: r) = Some (JObj [], r).
Proof. reflexivity. Qed.

Lemma parse_value_object fuel r :
  parse_value (S fuel) ("{"%char :: quote :: r) =
  match parse_members fuel (quote :: r) with
  | Some (m, r') => Some (JObj m, r')
  | None => None
  end.
Proof. reflexivity. Qed.

Lemma parse_elements_eq fuel s :
  parse_elements (S fuel) s =
  match parse_value fuel s with
  | None => None
  | Some (v, r) =>
      match skip_ws r with
      | [] => None
      | c :: r' =>
          if Ascii.eqb c ","%char then
            match parse_elements fuel r' with
            | Some (vs, r'') => Some (v :: vs, r'')
            | None => None
            end
          else if Ascii.eqb c "]"%char then Some ([v], r')
          else None
      end
  end.
Proof. reflexivity. Qed.

Lemma parse_members_eq fuel key s r2 :
  parse_chars s = Some (key, ":"%char :: r2) →
  parse_members (S fuel) (quote :: s) =
  match parse_value fuel r2 with
  | None => None
  | Some (v, r3) =>
      match skip_ws r3 with
      | [] => None
      | c :: r4 =>
          if Ascii.eqb c ","%char then
            match parse_members fuel r4 with
            | Some (ms, r5) => Some ((key, v) :: ms, r5)
            | None => None
            end
          else if Ascii.eqb c "}"%char then Some ([(key, v)], r4)
          else None
      end
  end.
Proof.
  intros H. cbn [parse_members skip_ws].
  change (is_ws quote) with false. cbv iota.
  change (Ascii.eqb quote quote) with true. cbv iota.
  rewrite H. reflexivity.
Qed.

(** The text of a value starts with a code unit that is not white space
    and closes neither an array nor an object. *)
Lemma print_head v :
  ∃ c r, print v = c :: r ∧ is_ws c = false ∧
         Ascii.eqb c "]"%char = false ∧ Ascii.eqb c "}"%char = false.
Proof.
  destruct v as [|[|]|s|l|members]; simpl; eexists _, _; done.
Qed.

(** *** Values *)

Lemma parse_elements_print l :
  Forall parses_back l → l ≠ [] →
  ∀ fuel rest,
    list_sum (map (λ x, S (need x)) l) ≤ fuel →
    parse_elements fuel (commas (map print l) ++ "]"%char :: rest) = Some (l, rest).
Proof.
  induction 1 as [|v l Hv Hl IH]; [done|]. intros _ fuel rest Hfuel.
  simpl in Hfuel. destruct fuel as [|fuel]; [lia|].
  rewrite parse_elements_eq. destruct l as [|v' l].
  - simpl. rewrite (Hv fuel) by lia. reflexivity.
  - change (commas (map print (v :: v' :: l)))
      with (print v ++ ","%char :: commas (map print (v' :: l))).
    rewrite <- app_assoc. rewrite (Hv fuel) by lia.
    cbn [skip_ws app]. change (is_ws ","%char) with false. cbv iota.
    change (Ascii.eqb ","%char ","%char) with true. cbv iota.
    rewrite IH; [done|done|]. simpl in *. lia.
Qed.

Lemma parse_members_print members :
  Forall (λ kv, parses_back (snd kv)) members → members ≠ [] →
  ∀ fuel rest,
    list_sum (map (λ kv, S (need (snd kv))) members) ≤ fuel →
    parse_members fuel
      (commas (map (λ kv, quoted (fst kv) ++ ":"%char :: print (snd kv)) members) ++
       "}"%char :: rest) = Some (members, rest).
Proof.
  induction 1 as [|[k v] members Hv Hm IH]; [done|]. intros _ fuel rest Hfuel.
  simpl in Hfuel, Hv. destruct fuel as [|fuel]; [lia|].
  destruct members as [|kv' members].
  - change (commas (map (λ kv, quoted (fst kv) ++ ":"%char :: print (snd kv))
                        [(k, v)]))
      with (quoted k ++ ":"%char :: print v).
    rewrite member_app.
    rewrite (parse_members_eq fuel k _ (print v ++ "}"%char :: rest))
      by apply parse_chars_escape.
    rewrite (Hv fuel) by lia. reflexivity.
  - change (commas (map (λ kv, quoted (fst kv) ++ ":"%char :: print (snd kv))
                        ((k, v) :: kv' :: members)))
      with ((quoted k ++ ":"%char :: print v) ++ ","%char ::
            commas (map (λ kv, quoted (fst kv) ++ ":"%char :: print (snd kv))
                        (kv' :: members))).
    set (tail := commas _).
    rewrite <- (app_assoc _ _ ("}"%char :: rest)), member_app. cbn [app].
    rewrite (parse_members_eq fuel k _ (print v ++ ","%char :: tail ++ "}"%char :: rest))
      by apply parse_chars_escape.
    rewrite (Hv fuel) by lia.
    cbn [skip_ws]. change (is_ws ","%char) with false. cbv iota.
    change (Ascii.eqb ","%char ","%char) with true. cbv iota.
    unfold tail. rewrite IH; [done|done|]. simpl in *. lia.
Qed.

Lemma parse_print v : parses_back v.
Proof.
  induction v as [|b|s|l IH|members IH] using json_induction;
    intros fuel rest Hfuel; (destruct fuel as [|fuel]; [simpl in Hfuel; lia|]).
  - reflexivity.
  - by destruct b.
  - change (print (JStr s)) with (quoted s).
    rewrite quoted_app, parse_value_string, parse_chars_escape. reflexivity.
  - destruct l as [|v l]; [reflexivity|].
    change (print (JArr (v :: l)) ++ rest)
      with ("["%char :: (commas (map print (v :: l)) ++ ["]"%char]) ++ rest).
    rewrite <- app_assoc. cbn [app].
    assert (Hhead : ∃ c r, commas (map print (v :: l)) = c :: r ∧ is_ws c = false ∧
                           Ascii.eqb c "]"%char = false).
    { destruct (print_head v) as (c & r & Hp & Hws & Hc & _).
      destruct l; simpl; rewrite Hp; eexists _, _; eauto. }
    destruct Hhead as (c & r & Hp & Hws & Hc).
    rewrite Hp. cbn [app]. rewrite parse_value_array by done.
    change (c :: r ++ "]"%char :: rest) with ((c :: r) ++ "]"%char :: rest).
    rewrite <- Hp, parse_elements_print; [done|done|done|]. simpl in *. lia.
  - destruct members as [|[k v] members]; [reflexivity|].
    change (print (JObj ((k, v) :: members)) ++ rest)
      with ("{"%char ::
            (commas (map (λ kv, quoted (fst kv) ++ ":"%char :: print (snd kv))
                         ((k, v) :: members)) ++ ["}"%char]) ++ rest).
    rewrite <- app_assoc. cbn [app].
    assert (Hhead : ∃ r,
      commas (map (λ kv, quoted (fst kv) ++ ":"%char :: print (snd kv))
                  ((k, v) :: members)) = quote :: r).
    { destruct members; simpl; eexists; reflexivity. }
    destruct Hhead as (r & Hp). rewrite Hp. cbn [app].
    rewrite parse_value_object.
    change (quote :: r ++ "}"%char :: rest) with ((quote :: r) ++ "}"%char :: rest).
    rewrite <- Hp, parse_members_print; [done|done|done|]. simpl in *. lia.
Qed.

(** *** The length of the text is enough fuel *)

Lemma commas_length items : list_sum (map length items) ≤ length (commas items).
Proof.
  induction items as [|x [|y items] IH]; simpl in *; [lia|lia|].
  rewrite length_app. simpl. lia.
Qed.

Lemma list_sum_le {A} (f g : A → nat) l :
  Forall (λ x, f x ≤ g x) l → list_sum (map f l) ≤ list_sum (map g l).
Proof. induction 1; simpl; lia. Qed.

Lemma need_lt_length v : need v < length (print v).
Proof.
  induction v as [|b|s|l IH|members IH] using json_induction.
  - simpl. lia.
  - destruct b; simpl; lia.
  - simpl. rewrite length_app. simpl. lia.
  - change (need (JArr l)) with (S (list_sum (map (λ x, S (need x)) l))).
    change (print (JArr l)) with ("["%char :: commas (map print l) ++ ["]"%char]).
    rewrite length_cons, length_app.
    pose proof (commas_length (map print l)) as Hc. rewrite map_map in Hc.
    pose proof (list_sum_le (λ x, S (need x)) (λ x, length (print x)) l IH).
    change (length ["]"%char]) with 1. lia.
  - change (need (JObj members))
      with (S (list_sum (map (λ kv, S (need (snd kv))) members))).
    change (print (JObj members))
      with ("{"%char ::
            commas (map (λ kv, quoted (fst kv) ++ ":"%char :: print (snd kv))
                        members) ++ ["}"%char]).
    rewrite length_cons, length_app.
    pose proof (commas_length
      (map (λ kv, quoted (fst kv) ++ ":"%char :: print (snd kv)) members)) as Hc.
    rewrite map_map in Hc.
    assert (Hle : list_sum (map (λ kv, S (need (snd kv))) members) ≤
                  list_sum (map (λ kv, length (quoted (fst kv) ++
                                                ":"%char :: print (snd kv)))
                                members)).
    { apply list_sum_le. eapply Forall_impl; [exact IH|].
      intros [k v] Hv. cbn [fst snd] in *.
      rewrite length_app, length_cons. lia. }
    pose proof (Nat.le_trans _ _ _ Hle Hc).
    change (length ["}"%char]) with 1. lia.
Qed.

(** [JSON.parse(JSON.stringify(v))] is [v]. *)
Lemma parse_stringify v : parse (stringify v) = Some v.
Proof.
  unfold parse, stringify, chars.
  rewrite list_ascii_of_string_of_list_ascii.
  rewrite <- (app_nil_r (print v)) at 2.
  rewrite parse_print by (pose proof (need_lt_length v); lia).
  reflexivity.
Qed.

(** The text of a value is never the empty string. *)
Lemma stringify_truthy v : JsString.truthy (stringify v) = true.
Proof.
  unfold stringify. destruct (print_head v) as (c & r & -> & _). reflexivity.
Qed.

End JsonRoundTrip.

(** ** The persisted transcript *)

Section Transcript.
Import JsString Json Chat.

Lemma mapM_map {A B} (f : A → B) (g : B → option A) (l : list A) :
  Forall (λ x, g (f x) = Some x) l → mapM g (map f l) = Some l.
Proof. induction 1 as [|x l Hx _ IH]; [done|]. simpl. by rewrite Hx, IH. Qed.

Lemma js_citation_to_js c : js_citation (citation_to_js c) = Some c.
Proof. by destruct c as [u [t|]]. Qed.

Lemma js_document_to_js d : js_document (document_to_js d) = Some d.
Proof. by destruct d. Qed.

Lemma js_sources_to_js x : js_sources (sources_to_js x) = Some x.
Proof.
  destruct x as [t docs cites].
  unfold js_sources, sources_to_js. cbn [property String.eqb Ascii.eqb Bool.eqb].
  cbn [type documents web type_to_js].
  assert (Ht : js_type (type_to_js t) = Some t) by by destruct t.
  assert (Hd : js_array js_document (JArr (map document_to_js docs)) = Some docs).
  { apply mapM_map, Forall_forall. intros d _. apply js_document_to_js. }
  assert (Hc : js_array js_citation (JArr (map citation_to_js cites)) = Some cites).
  { apply mapM_map, Forall_forall. intros c _. apply js_citation_to_js. }
  simpl. simpl in Ht, Hd, Hc. rewrite Ht. simpl. rewrite Hd. simpl. by rewrite Hc.
Qed.

Lemma js_feedback_to_js f : js_feedback (feedback_to_js f) = Some f.
Proof. by destruct f. Qed.

Lemma js_role_to_js r : js_role (role_to_js r) = Some r.
Proof. by destruct r. Qed.

Lemma js_optional_absent {A} (of_js : json → option A) :
  js_optional of_js None = Some None.
Proof. reflexivity. Qed.

Lemma js_optional_present {A} (of_js : json → option A) v a :
  of_js v = Some a → js_optional of_js (Some v) = Some (Some a).
Proof. unfold js_optional. by intros ->. Qed.

Lemma js_slot_message m : js_slot (slot_to_js (Msg m)) = Some (Msg m).
Proof.
  destruct m as [r c src fb].
  set (members := (("role", role_to_js r) :: ("content", JStr c) ::
                   optional "sources" sources_to_js src ++
                   optional "feedback" feedback_to_js fb)).
  change (slot_to_js (Msg (mkMessage r c src fb))) with (JObj members).
  assert (Hrole : property "role" members = Some (role_to_js r)) by done.
  assert (Hcontent : property "content" members = Some (JStr c)) by done.
  assert (Hsrc : js_optional js_sources (property "sources" members) = Some src).
  { destruct src as [x|], fb as [f|];
      first [ apply js_optional_present, js_sources_to_js
            | apply js_optional_absent ]. }
  assert (Hfb : js_optional js_feedback (property "feedback" members) = Some fb).
  { destruct src as [x|], fb as [f|];
      first [ apply js_optional_present, js_feedback_to_js
            | apply js_optional_absent ]. }
  unfold js_slot. rewrite Hrole, js_role_to_js, Hcontent, Hsrc, Hfb. reflexivity.
Qed.

Lemma js_slot_bare f : js_slot (slot_to_js (Bare f)) = Some (Bare f).
Proof. by destruct f. Qed.

(** A transcript without empty slots is read back as it was written. *)
Lemma restore_persist (l : list Slot) s ls :
  messages s = l → Vacant ∉ l → restore (persist s ls) = Some l.
Proof.
  intros <- Hv. unfold restore, persist. rewrite lookup_insert_eq.
  rewrite stringify_truthy, parse_stringify.
  change (mapM js_slot (map slot_to_js (messages s)) = Some (messages s)).
  apply mapM_map. apply Forall_forall. intros x Hx.
  destruct x as [m|f|]; [apply js_slot_message|apply js_slot_bare|].
  by destruct Hv.
Qed.

Lemma messages_not_vacant (msgs : list Message) : Vacant ∉ map Msg msgs.
Proof.
  intros Hin. apply list_elem_of_In, in_map_iff in Hin as (m & Hm & _).
  discriminate Hm.
Qed.

(** C3. For every sequence of messages: the text the effect writes under
    [chatMessages] is [JSON.stringify] of the transcript; [JSON.parse] of
    that text is the value that was written; the initializer of the
    [messages] cell reads back the same sequence of messages, in the
    same order, each with its role, content, sources (type, documents
    and web citations) and feedback; and the page mounted on that
    storage starts with this transcript. *)
Theorem transcript_round_trip (msgs : list Message) (s : State)
  (ls : gmap string string) :
  let saved := persist (setMessages (λ _, map Msg msgs) s) ls in
  saved !! "chatMessages" = Some (stringify (to_js (map Msg msgs))) ∧
  parse (stringify (to_js (map Msg msgs))) = Some (to_js (map Msg msgs)) ∧
  restore saved = Some (map Msg msgs) ∧
  ∃ w, mount saved = Some w ∧ messages (state w) = map Msg msgs.
Proof.
  intros saved.
  assert (Hrestore : restore saved = Some (map Msg msgs)).
  { apply restore_persist; [done|apply messages_not_vacant]. }
  split; [apply lookup_insert_eq|]. split; [apply parse_stringify|].
  split; [exact Hrestore|].
  unfold mount. rewrite Hrestore. eexists. split; reflexivity.
Qed.

Example sample_transcript_round_trip :
  restore (persist (mkState (map Msg sample_transcript) "" false "English"
                            false "" None ∅) ∅) =
  Some (map Msg sample_transcript).
Proof. vm_compute. reflexivity. Qed.

Example empty_transcript_text :
  stringify (to_js []) = "[]".
Proof. reflexivity. Qed.

Example user_message_text :
  stringify (to_js [Msg (user_message "hi")]) =
  "[{" +:+ String "034" "role" +:+ String "034" ":" +:+ String "034" "user" +:+
  String "034" "," +:+ String "034" "content" +:+ String "034" ":" +:+
  String "034" "hi" +:+ String "034" "}]".
Proof. reflexivity. Qed.

(** An empty slot, which only [handleFeedback] past the end of the array
    leaves, is written as [null] and is not read back as a slot. *)
Example vacant_slot_is_not_read_back :
  restore (persist (mkState [Vacant] "" false "English" false "" None ∅) ∅) = None.
Proof. vm_compute. reflexivity. Qed.

End Transcript.

(** ** Selecting files *)

Section Selecting.
Import JsString Async Upload.

Lemma partition_selection_valid selected :
  fst (partition_selection selected) = filter accepted selected.
Proof.
  induction selected as [|f selected IH]; [done|].
  simpl. destruct (partition_selection selected) as [valid errors].
  simpl in IH. unfold filter, list_filter. fold (filter accepted selected).
  destruct (decide (accepted f)) as [Hf|Hf]; unfold accepted in Hf.
  - rewrite Hf. simpl. by rewrite IH.
  - destruct (validateFile f); [|done]. simpl. by rewrite IH.
Qed.

Lemma partition_selection_errors selected :
  snd (partition_selection selected) = omap error_line selected.
Proof.
  induction selected as [|f selected IH]; [done|].
  simpl. destruct (partition_selection selected) as [valid errors].
  simpl in IH. unfold error_line at 1.
  destruct (validateFile f); simpl; by rewrite IH.
Qed.

Lemma no_error_iff_all_accepted selected :
  omap error_line selected = [] ↔ filter accepted selected = selected.
Proof.
  induction selected as [|f selected IH]; [done|].
  simpl. unfold error_line at 1.
  destruct (decide (accepted f)) as [Hf|Hf].
  - rewrite filter_cons_True by done. unfold accepted in Hf. rewrite Hf. simpl.
    rewrite IH. split; [by intros ->|by intros [= ->]].
  - rewrite filter_cons_False by done. unfold accepted in Hf.
    destruct (validateFile f) as [e|]; [|done]. simpl. split; [done|].
    intros Heq. pose proof (length_filter accepted selected) as Hlen.
    rewrite Heq in Hlen. simpl in Hlen. lia.
Qed.

Lemma handleFileChange_frame selected s :
  uploading (handleFileChange selected s) = uploading s ∧
  uploadProgress (handleFileChange selected s) = uploadProgress s ∧
  documents (handleFileChange selected s) = documents s ∧
  loading (handleFileChange selected s) = loading s.
Proof.
  unfold handleFileChange.
  destruct (partition_selection selected) as [[|v valid] [|e errors]]; done.
Qed.

(** X1. What a selection does to the page. With at least one accepted
    file, or with nothing selected, the selected files become exactly the
    accepted ones, in the order selected, and the recorded chunk counts are
    cleared. With files selected and all of them rejected, the previous
    selection and the recorded chunk counts stay, and the message lists
    one line per rejected file. Whatever is selected, the progress map,
    the document list and the two flags are untouched. *)
Theorem handleFileChange_installs_accepted (selected : list File) (s : State) :
  let valid := filter accepted selected in
  let s' := handleFileChange selected s in
  (valid ≠ [] ∨ selected = [] → files s' = valid ∧ chunksProcessed s' = ∅) ∧
  (valid ≠ [] →
   message s' = if decide (valid = selected) then ""
                else "Some files will be skipped due to errors.") ∧
  (valid = [] → selected ≠ [] →
   files s' = files s ∧ chunksProcessed s' = chunksProcessed s ∧
   message s' = join newline (omap error_line selected)) ∧
  uploading s' = uploading s ∧ uploadProgress s' = uploadProgress s ∧
  documents s' = documents s ∧ loading s' = loading s.
Proof.
  intros valid s'.
  split; [|split; [|split; [|apply handleFileChange_frame]]];
    unfold s', handleFileChange;
    pose proof (partition_selection_valid selected) as Hv;
    pose proof (partition_selection_errors selected) as He;
    pose proof (no_error_iff_all_accepted selected) as Hiff;
    destruct (partition_selection selected) as [vs es]; simpl in Hv, He;
    fold valid in Hv, Hiff; subst vs; rewrite <- He in Hiff.
  - intros [Hne| ->].
    + destruct valid as [|v valid']; [done|]. by destruct es.
    + simpl in *. destruct Hiff as [_ Hes]. rewrite Hes by done. done.
  - intros Hne. destruct valid as [|v valid'] eqn:Evalid; [done|].
    destruct es as [|e es'].
    + rewrite decide_True by by apply Hiff. done.
    + rewrite decide_False; [done|]. intros Heq. by apply Hiff in Heq.
  - intros Hnil Hsel. rewrite Hnil in *.
    destruct es as [|e es'].
    + destruct Hiff as [Hall _]. specialize (Hall eq_refl). congruence.
    + by rewrite He.
Qed.

Lemma handleFileChange_installs_accepted_witness :
  files (handleFileChange
           [mkFile "a.pdf" (10 * 1024 * 1024); mkFile "b.exe" (1024 * 1024)]
           initial) =
  [mkFile "a.pdf" (10 * 1024 * 1024)].
Proof.
  apply (handleFileChange_installs_accepted
           [mkFile "a.pdf" (10 * 1024 * 1024); mkFile "b.exe" (1024 * 1024)]
           initial).
  left. vm_compute. discriminate.
Defined.

Lemma handleFileChange_keeps_accepted selected s :
  Forall accepted (files s) → Forall accepted (files (handleFileChange selected s)).
Proof.
  intros Hs.
  assert (Hvalid : Forall accepted (filter accepted selected)).
  { apply Forall_forall. intros f Hf. by apply list_elem_of_filter in Hf as [? _]. }
  unfold handleFileChange. rewrite <- partition_selection_valid in Hvalid.
  destruct (partition_selection selected) as [[|v valid] [|e errors]]; done.
Qed.

Lemma select_all_accepted selections s :
  Forall accepted (files s) → Forall accepted (files (select_all selections s)).
Proof.
  revert s. induction selections as [|sel selections IH]; intros s Hs; [done|].
  simpl. apply IH. by apply handleFileChange_keeps_accepted.
Qed.

(** The calls of the loop are calls for files of the list, in order. *)
Lemma upload_loop_issues_prefix outcomes : ∀ remaining s,
  issued_files (run outcomes (upload_loop remaining s)).1.1 `prefix_of` remaining.
Proof.
  induction outcomes as [|o outcomes IH]; intros remaining s.
  - destruct remaining as [|f remaining]; simpl; [done|].
    unfold issued_files. simpl. apply prefix_cons, prefix_nil.
  - destruct remaining as [|f remaining]; simpl; [done|].
    destruct (result o) as [response|error] eqn:Hr; simpl.
    + specialize (IH remaining
        (setChunksProcessed (λ prev, <[name f := resp_chunks response]> prev)
           (fold_left (λ s ev, onUploadProgress (call_of f) ev s) (events o)
              (setMessage
                 (λ prev, prev +:+ newline +:+ "Uploading " +:+ name f +:+ "...")
                 s)))).
      destruct (run outcomes _) as [[log t] unused]. simpl in *.
      unfold issued_files in *. simpl. by apply prefix_cons.
    + rewrite run_done. unfold issued_files. simpl. apply prefix_cons, prefix_nil.
Qed.

(** X2. Whatever the user selects, any number of times, starting from the
    initial page: the selected files are all files [validateFile] accepts,
    and a batch run on them issues calls for accepted files only, for
    files of the selection, in its order. *)
Theorem only_accepted_files_are_uploaded
  (selections : list (list File)) (outcomes : list Outcome) :
  let s := select_all selections initial in
  let log := (run outcomes (handleUpload s)).1.1 in
  Forall accepted (files s) ∧
  issued_files log `prefix_of` files s ∧
  Forall accepted (issued_files log).
Proof.
  intros s log.
  assert (Hacc : Forall accepted (files s)) by (apply select_all_accepted; constructor).
  assert (Hpre : issued_files log `prefix_of` files s).
  { unfold log, handleUpload. destruct (files s) as [|f fs] eqn:Hfiles.
    - by rewrite run_done.
    - apply upload_loop_issues_prefix. }
  split; [done|]. split; [done|].
  destruct Hpre as [rest Hrest]. rewrite Hrest in Hacc.
  by apply Forall_app in Hacc as [? _].
Qed.

End Selecting.

(** ** More on the batch *)

Section BatchRecords.
Import JsString Async Upload.

(** The count recorded under a name is the one of the last call for a
    file of that name. *)
Lemma recorded_from_lookup
  (calls : list (File * (list ProgressEvent * UploadResponse)))
  (m : gmap string Z) (n : string) :
  fold_left (λ m c, <[name (fst c) := resp_chunks (snd (snd c))]> m) calls m !! n =
  match last (filter (λ c, name (fst c) = n) calls) with
  | Some c => Some (resp_chunks (snd (snd c)))
  | None => m !! n
  end.
Proof.
  revert m. induction calls as [|c calls IH]; intros m; [done|].
  simpl. rewrite IH. destruct (decide (name (fst c) = n)) as [Hc|Hc].
  - rewrite filter_cons_True by done. rewrite last_cons.
    destruct (last (filter _ calls)); [done|]. by rewrite Hc, lookup_insert_eq.
  - rewrite filter_cons_False by done.
    destruct (last (filter _ calls)); [done|]. by rewrite lookup_insert_ne.
Qed.

Lemma zip_lookup_Some {A B} (l : list A) (k : list B) i a b :
  l !! i = Some a → k !! i = Some b → zip l k !! i = Some (a, b).
Proof.
  revert k i. induction l as [|x l IH]; intros [|y k] [|i] Ha Hb; simplify_eq/=;
    [done|by apply IH].
Qed.

Lemma zip_lookup_fst {A B} (l : list A) (k : list B) i c :
  zip l k !! i = Some c → l !! i = Some (fst c) ∧ k !! i = Some (snd c).
Proof.
  revert k i. induction l as [|x l IH]; intros [|y k] [|i] Hc; simplify_eq/=;
    [done|by apply IH].
Qed.

Lemma zip_take_l {A B} (l : list A) (k : list B) :
  zip (take (length k) l) k = zip l k.
Proof.
  revert k. induction l as [|x l IH]; intros [|y k]; simpl; [done..|].
  by rewrite IH.
Qed.

(** X3. A batch whose calls all succeed, run alone: a call is issued for
    every file, in order, and the chunk count shown under a name is the
    one returned by the last call for a file of that name; when the names
    of the batch are distinct, every file shows the count its own call
    returned. *)
Theorem completed_batch_records_by_name (s : State)
  (oks : list (list ProgressEvent * UploadResponse)) (more : list Outcome) :
  files s ≠ [] → length oks = length (files s) →
  ∃ log s',
    run (map succeeds oks ++ more) (handleUpload s) = (log, Done s', more) ∧
    issued_files log = files s ∧
    (∀ n, chunksProcessed s' !! n =
          (λ c, resp_chunks (snd (snd c))) <$>
          last (filter (λ c, name (fst c) = n) (zip (files s) oks))) ∧
    (NoDup (map name (files s)) →
     ∀ i f o, files s !! i = Some f → oks !! i = Some o →
              chunksProcessed s' !! name f = Some (resp_chunks (snd o))).
Proof.
  intros Hne Hlen. rewrite run_completed by done. eexists _, _.
  split; [reflexivity|].
  assert (Hlookup : ∀ n,
    chunksProcessed (finally (completed
      (fold_left file_done (zip (files s) oks) (batch_start s)))) !! n =
    (λ c, resp_chunks (snd (snd c))) <$>
    last (filter (λ c, name (fst c) = n) (zip (files s) oks))).
  { intros n. simpl. rewrite files_done_chunks, recorded_from_lookup. simpl.
    by destruct (last _). }
  split; [|split; [exact Hlookup|]].
  - apply issued_files_calls_log. by rewrite length_map.
  - intros Hdup i f o Hf Ho. rewrite Hlookup.
    pose proof (zip_lookup_Some _ _ _ _ _ Hf Ho) as Hfo.
    assert (Hin : (f, o) ∈ filter (λ c, name (fst c) = name f) (zip (files s) oks)).
    { apply list_elem_of_filter. split; [done|]. by eapply list_elem_of_lookup_2. }
    destruct (last (filter _ _)) as [c|] eqn:Hlast.
    + apply last_Some_elem_of, list_elem_of_filter in Hlast as [Hname Hc].
      apply list_elem_of_lookup in Hc as [j Hj].
      apply zip_lookup_fst in Hj as [Hj1 Hj2].
      assert (j = i) as ->.
      { eapply NoDup_lookup; [exact Hdup| |];
          rewrite list_lookup_fmap; [rewrite Hj1|rewrite Hf]; simpl; by f_equal. }
      simpl. rewrite Ho in Hj2. by injection Hj2 as ->.
    + apply last_None in Hlast. rewrite Hlast in Hin. by apply elem_of_nil in Hin.
Qed.

Lemma completed_batch_records_by_name_witness :
  ∃ log s',
    run [succeeds ([], mkUploadResponse 7 "ok"); succeeds ([], mkUploadResponse 3 "ok")]
        (handleUpload
           (mkState [mkFile "a.pdf" 1024; mkFile "b.md" 10] false "" ∅ ∅ [] false)) =
      (log, Done s', []) ∧
    chunksProcessed s' !! "a.pdf" = Some 7%Z ∧
    chunksProcessed s' !! "b.md" = Some 3%Z.
Proof.
  destruct (completed_batch_records_by_name
    (mkState [mkFile "a.pdf" 1024; mkFile "b.md" 10] false "" ∅ ∅ [] false)
    [([], mkUploadResponse 7 "ok"); ([], mkUploadResponse 3 "ok")] []
    ltac:(discriminate) eq_refl) as (log & s' & Hrun & _ & _ & Hown).
  exists log, s'. split; [exact Hrun|].
  assert (Hdup : NoDup (map name [mkFile "a.pdf" 1024; mkFile "b.md" 10])).
  { simpl. apply NoDup_cons. split; [|apply NoDup_singleton].
    intros Hin%list_elem_of_singleton. discriminate Hin. }
  split.
  - apply (Hown Hdup 0 (mkFile "a.pdf" 1024) ([], mkUploadResponse 7 "ok"));
      reflexivity.
  - apply (Hown Hdup 1 (mkFile "b.md" 10) ([], mkUploadResponse 3 "ok"));
      reflexivity.
Defined.

(** X4. A batch whose first calls succeed and whose next call does not
    settle: the handler stays suspended on that call. No further call is
    issued, [uploading] stays true, the selection is intact, the counts of
    the files done are recorded, and the message ends with the line for
    the file in flight. *)
Theorem batch_waits_for_its_call (s : State)
  (oks : list (list ProgressEvent * UploadResponse)) (f : File) :
  files s !! length oks = Some f →
  ∃ s' k,
    run (map succeeds oks) (handleUpload s) =
      (calls_log (zip (files s) (map succeeds oks)) ++ [Issued f],
       Await (call_of f) s' k, []) ∧
    uploading s' = true ∧ files s' = files s ∧
    chunksProcessed s' = recorded (zip (files s) oks) ∧
    (∃ before, message s' =
               before +:+ newline +:+ "Uploading " +:+ name f +:+ "...") ∧
    documents s' = documents s ∧ loading s' = loading s.
Proof.
  intros Hf.
  pose proof (take_drop_middle _ _ _ Hf) as Hsplit.
  assert (Hlen : length oks = length (take (length oks) (files s))).
  { rewrite length_take. apply lookup_lt_Some in Hf. lia. }
  assert (Hzip : ∀ {B} (k : list B), length k = length oks →
            zip (files s) k = zip (take (length oks) (files s)) k).
  { intros B k Hk. by rewrite <- Hk, zip_take_l. }
  rewrite handleUpload_nonempty by (intros Hnil; by rewrite Hnil in Hf).
  replace (upload_loop (files s) (batch_start s))
    with (upload_loop (take (length oks) (files s) ++
                       f :: drop (S (length oks)) (files s)) (batch_start s))
    by (by rewrite Hsplit).
  pose proof (run_upload_loop_ok (take (length oks) (files s)) oks
                (f :: drop (S (length oks)) (files s)) [] (batch_start s) Hlen)
    as Hrun.
  rewrite app_nil_r in Hrun. rewrite Hrun. simpl.
  rewrite (Hzip _ (map succeeds oks)) by apply length_map.
  rewrite (Hzip _ oks) by done.
  eexists _, _. split; [reflexivity|].
  pose proof (files_done_frame (zip (take (length oks) (files s)) oks) (batch_start s))
    as (Hf1 & Hd1 & Hl1 & Hu1).
  simpl. rewrite Hf1, Hd1, Hl1, Hu1, files_done_chunks. simpl.
  repeat split; try done. eexists. reflexivity.
Qed.

Lemma batch_waits_for_its_call_witness :
  ∃ s' k,
    run [succeeds ([], mkUploadResponse 7 "ok")]
        (handleUpload
           (mkState [mkFile "a.pdf" 1024; mkFile "b.md" 10] false "" ∅ ∅ [] false)) =
      ([Issued (mkFile "a.pdf" 1024);
        Settled (mkFile "a.pdf" 1024) (UploadOk (mkUploadResponse 7 "ok"));
        Issued (mkFile "b.md" 10)],
       Await (call_of (mkFile "b.md" 10)) s' k, []) ∧
    uploading s' = true.
Proof.
  destruct (batch_waits_for_its_call
    (mkState [mkFile "a.pdf" 1024; mkFile "b.md" 10] false "" ∅ ∅ [] false)
    [([], mkUploadResponse 7 "ok")] (mkFile "b.md" 10) eq_refl)
    as (s' & k & Hrun & Hup & _).
  exists s', k. split; [exact Hrun|exact Hup].
Defined.

(** X5. The percentage [uploadDocument] reports. An event without total,
    or with total 0, changes nothing. For an event with [0 <= loaded <=
    total] and a total below 2^44 bytes (where the double quotient of the
    source rounds as the exact one) the stored percentage lies between 0
    and 100; it is 100 as soon as the bytes sent reach 99.5 percent of
    the total, so also before the call has settled. *)
Theorem progress_percentage_range (file : File) (ev : ProgressEvent) (s : State) :
  (total ev = None ∨ total ev = Some 0%Z →
   onUploadProgress (call_of file) ev s = s) ∧
  (∀ t, total ev = Some t → (0 < t < 2 ^ 44)%Z → (0 ≤ loaded ev ≤ t)%Z →
        ∃ p, uploadProgress (onUploadProgress (call_of file) ev s) !! name file =
               Some p ∧
             (0 ≤ p ≤ 100)%Z ∧
             (p = 100%Z ↔ (199 * t ≤ 200 * loaded ev)%Z)).
Proof.
  split.
  - unfold onUploadProgress. simpl. by intros [->| ->].
  - intros t Ht [Hpos _] Hrange. unfold onUploadProgress. simpl. rewrite Ht.
    destruct (Z.eqb_spec t 0); [lia|]. simpl. rewrite lookup_insert_eq.
    eexists. split; [reflexivity|]. unfold Math_round_div.
    pose proof (Z.mul_div_le (2 * (loaded ev * 100) + t) (2 * t) ltac:(lia)) as Hlow.
    pose proof (Z.mul_succ_div_gt (2 * (loaded ev * 100) + t) (2 * t) ltac:(lia))
      as Hup.
    unfold Z.succ in Hup.
    set (p := ((2 * (loaded ev * 100) + t) / (2 * t))%Z) in *. clearbody p.
    assert (0 ≤ p ≤ 100)%Z by nia.
    split; [done|]. split; intros; nia.
Qed.

Lemma progress_percentage_range_witness :
  ∃ p, uploadProgress
         (onUploadProgress (call_of (mkFile "a.pdf" 1024))
            (mkProgressEvent 512 (Some 1024%Z))
            (mkState [mkFile "a.pdf" 1024] true "" ∅ ∅ [] false))
         !! "a.pdf" = Some p ∧
       (0 ≤ p ≤ 100)%Z.
Proof.
  destruct (progress_percentage_range (mkFile "a.pdf" 1024)
              (mkProgressEvent 512 (Some 1024%Z))
              (mkState [mkFile "a.pdf" 1024] true "" ∅ ∅ [] false)) as [_ H].
  destruct (H 1024%Z eq_refl ltac:(lia) ltac:(simpl; lia)) as (p & Hp & Hr & _).
  exists p. split; [exact Hp|exact Hr].
Defined.

(** X6. The percentages of one transfer: when the events of a call carry
    the same positive total, below 2^44 bytes, and a byte count between 0
    and the total that does not decrease, the percentage stored for the
    file after each event is the rounded percentage of the event, and it
    never goes down. *)
Theorem transfer_progress_is_monotone (file : File) (evs : list ProgressEvent)
  (t : Z) (s : State) :
  (0 < t < 2 ^ 44)%Z → Forall (λ ev, total ev = Some t) evs →
  Forall (λ ev, (0 ≤ loaded ev ≤ t)%Z) evs →
  nondecreasing (map loaded evs) →
  transfer_history file evs s =
    map (λ ev, Some (Math_round_div (loaded ev * 100) t)) evs ∧
  never_regresses (transfer_history file evs s).
Proof.
  intros [Ht _] Hall _ Hmono. split.
  - apply transfer_history_values; [lia|done].
  - by apply (transfer_never_regresses file evs t).
Qed.

Lemma transfer_progress_is_monotone_witness :
  never_regresses
    (transfer_history (mkFile "a.pdf" 1024)
       [mkProgressEvent 0 (Some 1024%Z); mkProgressEvent 512 (Some 1024%Z);
        mkProgressEvent 1024 (Some 1024%Z)]
       (mkState [mkFile "a.pdf" 1024] true "" ∅ ∅ [] false)).
Proof.
  apply (transfer_progress_is_monotone (mkFile "a.pdf" 1024)
           [mkProgressEvent 0 (Some 1024%Z); mkProgressEvent 512 (Some 1024%Z);
            mkProgressEvent 1024 (Some 1024%Z)] 1024%Z).
  - lia.
  - repeat constructor.
  - repeat constructor; simpl; lia.
  - intros i j a b Hij Hi Hj.
    destruct i as [|[|[|i]]], j as [|[|[|j]]]; simpl in *; simplify_eq; lia.
Defined.

End BatchRecords.

(** ** The end of a batch, and after *)

Section BatchTermination.
Import JsString Async Upload.

(** What a selection does to the chunk counts. *)
Lemma handleFileChange_chunks selected s :
  chunksProcessed (handleFileChange selected s) =
  if clears (SelectFiles selected) (mkPage s [] []) then ∅
  else chunksProcessed s.
Proof.
  unfold clears, handleFileChange.
  pose proof (partition_selection_valid selected) as Hv.
  pose proof (partition_selection_errors selected) as He.
  pose proof (no_error_iff_all_accepted selected) as Hiff.
  destruct (partition_selection selected) as [vs es]. simpl in Hv, He.
  subst vs es.
  destruct (filter accepted selected) as [|v vs] eqn:Hv.
  - destruct (omap error_line selected) as [|e es] eqn:He.
    + destruct Hiff as [Hall _]. rewrite <- (Hall eq_refl).
      by rewrite bool_decide_eq_true_2 by by left.
    + rewrite bool_decide_eq_false_2; [done|].
      intros [->|Hne]; [discriminate He|done].
  - rewrite bool_decide_eq_true_2 by by right.
    by destruct (omap error_line selected).
Qed.

(** The calls for the document list stay calls the page issued. *)
Lemma page_act_issued_by_page a p :
  Forall issued_by_page (registry p) →
  Forall issued_by_page (registry (page_act a p)).
Proof.
  intros Hok. destruct a; simpl; try done.
  - by destruct (handleUpload (cells p)).
  - by destruct (uploads p !! i) as [[call k]|].
  - destruct (uploads p !! i) as [[call k]|]; [|done].
    by destruct (k r (cells p)).
  - destruct confirmed; [|done]. simpl.
    apply Forall_app. split; [done|]. apply Forall_singleton.
    right. by exists doc, (cells p).
  - destruct (registry p !! i) as [[call k]|] eqn:Hi; [|done].
    pose proof (Forall_lookup_1 _ _ _ _ Hok Hi) as [Hc|(doc & s0 & Hc)].
    + injection Hc as -> ->. simpl. by apply Forall_delete.
    + simpl in Hc. injection Hc as Hcall Hk. subst call k. destruct r; simpl.
      * apply Forall_insert; [done|by left].
      * by apply Forall_delete.
Qed.

(** An action that is not one of those that empty the chunk counts keeps
    them, and issues no upload call. *)
Lemma page_act_keeps_counts a p :
  Forall issued_by_page (registry p) → uploads p = [] →
  clears a p = false →
  chunksProcessed (cells (page_act a p)) = chunksProcessed (cells p) ∧
  uploads (page_act a p) = [].
Proof.
  intros Hok Hup Hclear. destruct a; simpl.
  - rewrite handleFileChange_chunks. simpl in *. by rewrite Hclear.
  - simpl in Hclear. apply bool_decide_eq_false in Hclear.
    unfold handleUpload. destruct (files (cells p)); [done|].
    by destruct Hclear.
  - by rewrite Hup.
  - by rewrite Hup.
  - by destruct confirmed.
  - destruct (registry p !! i) as [[call k]|] eqn:Hi; [|done].
    pose proof (Forall_lookup_1 _ _ _ _ Hok Hi) as [Hc|(doc & s0 & Hc)].
    + injection Hc as -> ->. simpl. by destruct r.
    + simpl in Hc. injection Hc as Hcall Hk. subst call k. by destruct r.
Qed.

Lemma page_run_keeps_counts acts : ∀ p,
  Forall issued_by_page (registry p) → uploads p = [] →
  none_clears acts p = true →
  chunksProcessed (cells (page_run acts p)) = chunksProcessed (cells p).
Proof.
  induction acts as [|a acts IH]; intros p Hok Hup Hnone; [done|].
  simpl in Hnone. apply andb_true_iff in Hnone as [Ha Hnone].
  apply negb_true_iff in Ha.
  destruct (page_act_keeps_counts a p Hok Hup Ha) as [Hkeep Hup'].
  simpl. rewrite IH; [done| |done..].
  by apply page_act_issued_by_page.
Qed.

Lemma counts_are_retained s : counts_retained s.
Proof.
  intros calls acts Hok Hnone.
  by apply (page_run_keeps_counts acts (mkPage s [] calls)).
Qed.

(** An action that empties the chunk counts. *)
Lemma page_act_clears a p :
  clears a p = true → chunksProcessed (cells (page_act a p)) = ∅.
Proof.
  intros Hclear. destruct a; try discriminate Hclear; simpl.
  - rewrite handleFileChange_chunks. simpl in *. by rewrite Hclear.
  - simpl in Hclear. apply bool_decide_eq_true in Hclear.
    unfold handleUpload. by destruct (files (cells p)).
Qed.

(** Every page reached from the mount has only calls for the document
    list that the page issued. *)
Lemma page_run_issued_by_page acts :
  Forall issued_by_page (registry (page_run acts page_mount)).
Proof.
  assert (H : ∀ p, Forall issued_by_page (registry p) →
                   Forall issued_by_page (registry (page_run acts p))).
  { induction acts as [|a acts IH]; intros p Hok; [done|].
    simpl. by apply IH, page_act_issued_by_page. }
  apply H. apply Forall_singleton. by left.
Qed.

(** C9, as the code has it. A batch that completes clears the selected
    files and the progress map; a batch that aborts clears the progress
    map and keeps the selected files. In both cases [uploading] becomes
    false, the message becomes the success or the error message,
    [documents] and [loading] are unchanged, and the chunk counts
    recorded for the files completed are kept, and retained afterwards:
    they stay as they are through every action of the page (a selection
    of rejected files only, the Delete buttons, the calls for the
    document list settling) until one of the actions that empty them.
    These are Upload on a selection that is not empty, which starts the
    next batch, and a selection that is empty or has an accepted file. *)
Theorem batch_termination (s : State)
  (oks : list (list ProgressEvent * UploadResponse)) (more : list Outcome) :
  files s ≠ [] →
  (length oks = length (files s) →
   ∃ log s',
     run (map succeeds oks ++ more) (handleUpload s) = (log, Done s', more) ∧
     files s' = [] ∧ uploadProgress s' = ∅ ∧
     chunksProcessed s' = recorded (zip (files s) oks) ∧
     uploading s' = false ∧ message s' = "All files uploaded successfully!" ∧
     documents s' = documents s ∧ loading s' = loading s ∧
     counts_retained s') ∧
  (∀ before failing after evs error,
     files s = before ++ failing :: after → length oks = length before →
     ∃ log s',
       run (map succeeds oks ++ fails evs error :: more) (handleUpload s) =
         (log, Done s', more) ∧
       files s' = files s ∧ uploadProgress s' = ∅ ∧
       chunksProcessed s' = recorded (zip before oks) ∧
       uploading s' = false ∧ message s' = errorMessage error ∧
       documents s' = documents s ∧ loading s' = loading s ∧
       counts_retained s') ∧
  chunksProcessed (state_of (handleUpload s)) = ∅ ∧
  (∀ a p, clears a p = true → chunksProcessed (cells (page_act a p)) = ∅).
Proof.
  intros Hne. split; [|split; [|split]].
  - intros Hlen. rewrite run_completed by done.
    eexists _, _. split; [reflexivity|].
    pose proof (files_done_frame (zip (files s) oks) (batch_start s)) as (_ & Hd & Hl & _).
    simpl. rewrite files_done_chunks, Hd, Hl.
    repeat split; try done. apply counts_are_retained.
  - intros before failing after evs error Hfiles Hlen.
    rewrite (run_aborted _ _ _ _ _ _ _ _ Hfiles Hlen).
    eexists _, _. split; [reflexivity|].
    set (s1 := fold_left file_done (zip before oks) (batch_start s)).
    set (s2 := setMessage _ s1).
    pose proof (progress_events_frame failing evs s2) as (Hf & _ & _ & Hc & Hd & Hl).
    pose proof (files_done_frame (zip before oks) (batch_start s)) as (Hf1 & Hd1 & Hl1 & _).
    split; [|split; [|split; [|split; [|split; [|split; [|split]]]]]];
      try apply counts_are_retained;
      simpl in *; rewrite ?Hf, ?Hc, ?Hd, ?Hl; unfold s1;
      by rewrite ?Hf1, ?Hd1, ?Hl1, ?files_done_chunks.
  - rewrite handleUpload_nonempty by done. by destruct (files s).
  - apply page_act_clears.
Qed.

Lemma batch_termination_witness :
  ∃ log s',
    run [succeeds ([], mkUploadResponse 7 "ok"); fails [] ErrRequest]
        (handleUpload
           (mkState [mkFile "a.pdf" 1024; mkFile "b.md" 10] false "" ∅ ∅ [] false)) =
      (log, Done s', []) ∧
    files s' = [mkFile "a.pdf" 1024; mkFile "b.md" 10] ∧
    uploadProgress s' = ∅ ∧
    chunksProcessed s' !! "a.pdf" = Some 7%Z ∧
    chunksProcessed
      (cells (page_run
                [SelectFiles [mkFile "c.exe" 5];
                 ClickDelete (mkDocument "old.pdf" "docs/old.pdf" 3 []) true;
                 RegistrySettles 0 (Fulfilled []);
                 RegistrySettles 0 Rejected]
                (mkPage s' [] []))) !! "a.pdf" = Some 7%Z.
Proof.
  destruct (batch_termination
    (mkState [mkFile "a.pdf" 1024; mkFile "b.md" 10] false "" ∅ ∅ [] false)
    [([], mkUploadResponse 7 "ok")] [] ltac:(discriminate)) as (_ & Habort & _).
  destruct (Habort [mkFile "a.pdf" 1024] (mkFile "b.md" 10) [] [] ErrRequest
              eq_refl eq_refl) as (log & s' & Hrun & Hf & Hp & Hc & _ & _ & _ & _ & Hkept).
  exists log, s'. split; [exact Hrun|]. split; [exact Hf|]. split; [exact Hp|].
  split.
  - rewrite Hc. reflexivity.
  - rewrite Hkept; [rewrite Hc; reflexivity|constructor|].
    vm_compute. reflexivity.
Defined.

(** C9 as stated fails: a batch that aborts does not clear the selected
    files. *)
Lemma aborted_batch_keeps_files :
  ¬ (∀ s outcomes log s',
       files s ≠ [] → run outcomes (handleUpload s) = (log, Done s', []) →
       files s' = [] ∧ uploadProgress s' = ∅).
Proof.
  intros H.
  destruct (H (mkState [mkFile "a.pdf" 1024] false "" ∅ ∅ [] false)
              [fails [] ErrRequest] _ _ ltac:(discriminate) eq_refl) as [Hfiles _].
  discriminate Hfiles.
Qed.

End BatchTermination.

(** ** The document list *)

Section DocumentList.
Import JsString Async Upload.

(** X7. [loadDocuments], run alone. While the list call is in flight
    [loading] is true and the cached list is the old one. When the call is
    fulfilled the cached list is replaced by the list received, whole;
    when it is rejected the cached list is kept and the message says the
    load failed. Either way [loading] ends false, and the selection, the
    upload flag, the progress map and the chunk counts are untouched. On
    mount the page is loading, with an empty list, and issues this call. *)
Theorem loadDocuments_replaces_or_keeps (s : State) (r : RegistryResult) :
  (∃ s1, run_registry [] (loadDocuments s) =
           ([ListDocuments], Await ListDocuments s1 loadDocuments_resume) ∧
         loading s1 = true ∧ documents s1 = documents s) ∧
  (∃ s', run_registry [r] (loadDocuments s) = ([ListDocuments], Done s') ∧
         loading s' = false ∧
         documents s' =
           match r with Fulfilled listed => listed | Rejected => documents s end ∧
         message s' =
           match r with
           | Fulfilled _ => message s
           | Rejected => "Failed to load documents"
           end ∧
         files s' = files s ∧ uploading s' = uploading s ∧
         uploadProgress s' = uploadProgress s ∧
         chunksProcessed s' = chunksProcessed s) ∧
  pending mount = Some ListDocuments ∧
  loading (state_of mount) = true ∧ documents (state_of mount) = [].
Proof.
  split; [|split].
  - eexists. split; [reflexivity|]. done.
  - eexists. split; [reflexivity|]. by destruct r.
  - done.
Qed.

(** X8. The Delete button of a document, run alone. Not confirmed: no
    call, nothing changes. Delete rejected: no list call is issued, the
    cached list is kept, the message names the document. Delete fulfilled:
    the list call is issued at once; until it settles the cached list
    still holds the document and [loading] is true; when it is fulfilled
    the cached list is the list received, and when it is rejected the
    cached list is the old one, the deleted document included, and the
    message says the load failed. *)
Theorem delete_refreshes_from_server (doc : Document) (s : State)
  (body listed : list Document) :
  handleDelete doc false s = Done s ∧
  (∃ s', run_registry [Rejected] (handleDelete doc true s) =
           ([DeleteDocument (path doc)], Done s') ∧
         documents s' = documents s ∧ loading s' = loading s ∧
         message s' = "Error deleting " +:+ doc_name doc) ∧
  (∃ s1 k, run_registry [Fulfilled body] (handleDelete doc true s) =
             ([DeleteDocument (path doc); ListDocuments],
              Await ListDocuments s1 k) ∧
           documents s1 = documents s ∧ loading s1 = true ∧
           message s1 = "Successfully deleted " +:+ doc_name doc) ∧
  (∃ s', run_registry [Fulfilled body; Fulfilled listed] (handleDelete doc true s) =
           ([DeleteDocument (path doc); ListDocuments], Done s') ∧
         documents s' = listed ∧ loading s' = false ∧
         message s' = "Successfully deleted " +:+ doc_name doc) ∧
  (∃ s', run_registry [Fulfilled body; Rejected] (handleDelete doc true s) =
           ([DeleteDocument (path doc); ListDocuments], Done s') ∧
         documents s' = documents s ∧ loading s' = false ∧
         message s' = "Failed to load documents").
Proof.
  split; [done|]. split; [|split; [|split]].
  - eexists. split; [reflexivity|]. done.
  - eexists _, _. split; [reflexivity|]. done.
  - eexists. split; [reflexivity|]. done.
  - eexists. split; [reflexivity|]. done.
Qed.

(** *** The size shown for a file *)

Lemma tenths_bounds (num den : Z) :
  (0 < den)%Z →
  (2 * den * tenths num den ≤ 20 * num + den < 2 * den * (tenths num den + 1))%Z.
Proof.
  intros Hden. unfold tenths.
  pose proof (Z.mul_div_le (20 * num + den) (2 * den) ltac:(lia)).
  pose proof (Z.mul_succ_div_gt (20 * num + den) (2 * den) ltac:(lia)).
  unfold Z.succ in *. lia.
Qed.

(** X9. [formatFileSize], for the size of a file: an integer from 0 and
    below 2^53. Below 1024 bytes the size is shown in bytes, as it is.
    From 1024 bytes and below 1024 * 1024 it is shown in KB with one
    decimal, the tenths shown being within half a tenth of a KB of the
    size, the larger at a tie: they range from 1.0 to 1024.0. From there
    on it is shown in MB in the same way, and a file the validation gate
    accepts is never shown as more than 50.0 MB. *)
Theorem formatFileSize_accuracy (bytes : Z) :
  (0 ≤ bytes < 2 ^ 53)%Z →
  ((bytes < 1024)%Z → formatFileSize bytes = pretty bytes +:+ " B") ∧
  ((1024 ≤ bytes < 1024 * 1024)%Z →
   ∃ n, formatFileSize bytes = decimal1 n +:+ " KB" ∧
        (10 ≤ n ≤ 10240)%Z ∧
        (-512 ≤ 10 * bytes - 1024 * n < 512)%Z) ∧
  ((1024 * 1024 ≤ bytes)%Z →
   ∃ n, formatFileSize bytes = decimal1 n +:+ " MB" ∧
        (10 ≤ n)%Z ∧
        (-524288 ≤ 10 * bytes - 1048576 * n < 524288)%Z ∧
        (bytes ≤ MAX_FILE_SIZE → n ≤ 500)%Z).
Proof.
  intros _. unfold formatFileSize. split; [|split].
  - intros Hlt. by destruct (Z.ltb_spec bytes 1024); [|lia].
  - intros [Hlo Hhi].
    destruct (Z.ltb_spec bytes 1024); [lia|].
    destruct (Z.ltb_spec bytes (1024 * 1024)); [|lia].
    exists (tenths bytes 1024). split; [done|].
    pose proof (tenths_bounds bytes 1024 ltac:(lia)). lia.
  - intros Hlo.
    destruct (Z.ltb_spec bytes 1024); [lia|].
    destruct (Z.ltb_spec bytes (1024 * 1024)); [lia|].
    exists (tenths bytes (1024 * 1024)). split; [done|].
    pose proof (tenths_bounds bytes (1024 * 1024) ltac:(lia)).
    unfold MAX_FILE_SIZE. lia.
Qed.

Lemma formatFileSize_accuracy_witness :
  ∃ n, formatFileSize (10 * 1024 * 1024) = decimal1 n +:+ " MB" ∧ (n ≤ 500)%Z.
Proof.
  destruct (formatFileSize_accuracy (10 * 1024 * 1024) ltac:(lia)) as (_ & _ & H).
  destruct (H ltac:(lia)) as (n & Hn & _ & _ & Hmax).
  exists n. split; [exact Hn|]. apply Hmax. unfold MAX_FILE_SIZE. lia.
Defined.

Example formatFileSize_samples :
  formatFileSize 512 = "512 B" ∧
  formatFileSize 1536 = "1.5 KB" ∧
  formatFileSize (1024 * 1024 - 1) = "1024.0 KB" ∧
  formatFileSize (10 * 1024 * 1024) = "10.0 MB".
Proof. repeat split; vm_compute; reflexivity. Qed.

End DocumentList.

(** ** The chat page in its environment *)

Section ChatPage.
Import JsString Async Json Chat.

(** X10. [toggleSources] flips the flag the view reads for the message,
    and only that one; toggling twice gives back the flags as they were
    read, for every message. It leaves the transcript alone and nothing of
    it is written to [localStorage]. *)
Theorem toggleSources_flips (idx : nat) (s : State) (w : World) :
  expanded idx (toggleSources idx s) = negb (expanded idx s) ∧
  (∀ j, j ≠ idx → expanded j (toggleSources idx s) = expanded j s) ∧
  (∀ j, expanded j (toggleSources idx (toggleSources idx s)) = expanded j s) ∧
  messages (toggleSources idx s) = messages s ∧
  storage (act (ClickViewSources idx) w) = storage w.
Proof.
  assert (Hsame : expanded idx (toggleSources idx s) = negb (expanded idx s)).
  { unfold expanded. simpl. by rewrite lookup_insert_eq. }
  assert (Hother : ∀ s j, j ≠ idx → expanded j (toggleSources idx s) = expanded j s).
  { intros s0 j Hj. unfold expanded. simpl. by rewrite lookup_insert_ne. }
  split; [done|]. split; [apply Hother|]. split; [|done].
  intros j. destruct (decide (j = idx)) as [->|Hj].
  - unfold expanded in *. simpl. rewrite !lookup_insert_eq. simpl.
    apply negb_involutive.
  - by rewrite !Hother.
Qed.

Lemma toggleSources_flips_witness :
  expanded 1 (toggleSources 2 (toggleSources 1
    (mkState [] "" false "English" false "" None ∅))) = true.
Proof.
  destruct (toggleSources_flips 2
              (toggleSources 1 (mkState [] "" false "English" false "" None ∅))
              (mkWorld (mkState [] "" false "English" false "" None ∅) ∅ [] []))
    as (_ & Hother & _).
  rewrite (Hother 1) by lia. reflexivity.
Defined.

(** *** What is in [localStorage] *)

Lemma act_synced a w : synced w → synced (act a w).
Proof.
  unfold synced. intros Hs. destruct a; simpl; try done.
  - unfold handleSubmit. destruct (negb _ || _); [done|].
    simpl. apply lookup_insert_eq.
  - destruct (in_flight w !! i) as [[req k]|]; [|done].
    destruct (k r (state w)); simpl; apply lookup_insert_eq.
  - apply lookup_insert_eq.
  - destruct confirmed; [|done]. simpl. apply lookup_insert_eq.
Qed.

Lemma act_other_keys a w key :
  key ≠ "chatMessages" → storage (act a w) !! key = storage w !! key.
Proof.
  intros Hkey. destruct a; simpl; try done.
  - unfold handleSubmit. destruct (negb _ || _); [done|].
    simpl. unfold persist. by rewrite lookup_insert_ne.
  - destruct (in_flight w !! i) as [[req k]|]; [|done].
    destruct (k r (state w)); simpl; unfold persist; by rewrite lookup_insert_ne.
  - unfold persist. by rewrite lookup_insert_ne.
  - destruct confirmed; [|done]. simpl. unfold persist.
    rewrite lookup_insert_ne by done. by rewrite lookup_delete_ne.
Qed.

Lemma mount_world ls w0 :
  mount ls = Some w0 →
  restore ls = Some (messages (state w0)) ∧ synced w0 ∧
  in_flight w0 = [] ∧ issued w0 = [] ∧ loading (state w0) = false ∧
  ∀ key, key ≠ "chatMessages" → storage w0 !! key = ls !! key.
Proof.
  unfold mount. destruct (restore ls) as [saved|]; [|done]. intros [= <-].
  simpl. repeat split; try done.
  - apply lookup_insert_eq.
  - intros key Hkey. unfold persist. by rewrite lookup_insert_ne.
Qed.

(** X11. From the moment the page is mounted, and whatever is done on it
    (any actions, in any order): [localStorage] holds under [chatMessages]
    the text of the transcript in memory, and every other key of
    [localStorage], the API keys among them, is as it was at mount. *)
Theorem transcript_stays_persisted (ls : gmap string string) (w0 : World)
  (acts : list Action) :
  mount ls = Some w0 →
  synced (run_actions acts w0) ∧
  ∀ key, key ≠ "chatMessages" → storage (run_actions acts w0) !! key = ls !! key.
Proof.
  intros (_ & Hs & _ & _ & _ & Hk)%mount_world.
  revert w0 Hs Hk. induction acts as [|a acts IH]; intros w0 Hs Hk; [done|].
  simpl. apply IH; [by apply act_synced|].
  intros key Hkey. rewrite act_other_keys by done. by apply Hk.
Qed.

Lemma transcript_stays_persisted_witness :
  synced
    (run_actions
       [ChangeInput "What is the refund policy?"; SubmitForm;
        Settles 0 (ChatOk "It is 30 days." None); ClickHelpful 1]
       (mkWorld (mkState [] "" false "English" false "" None ∅)
                {["chatMessages" := "[]"]} [] [])).
Proof.
  apply (transcript_stays_persisted ∅). vm_compute. reflexivity.
Defined.

(** *** Restarting *)

Lemma js_slot_not_vacant v : js_slot v ≠ Some Vacant.
Proof.
  unfold js_slot. destruct v as [| | | |members]; try done.
  destruct (property "role" members) as [r|].
  - destruct (js_role r); simpl; [|done].
    destruct (property "content" members ≫= js_string); simpl; [|done].
    destruct (js_optional js_sources _); simpl; [|done].
    destruct (js_optional js_feedback _); simpl; done.
  - destruct (property "content" members), (property "sources" members); try done.
    destruct (property "feedback" members ≫= js_feedback); done.
Qed.

Lemma restore_not_vacant ls l : restore ls = Some l → Vacant ∉ l.
Proof.
  unfold restore. intros Hr Hin.
  assert (Hempty : Vacant ∉ ([] : list Slot)) by apply not_elem_of_nil.
  destruct (ls !! "chatMessages") as [saved|]; [|by simplify_eq].
  destruct (truthy saved); [|by simplify_eq].
  destruct (parse saved) as [v|]; [|done]. simpl in Hr.
  destruct v as [| | |items|]; try done. simpl in Hr.
  apply mapM_Some in Hr.
  apply list_elem_of_lookup in Hin as [i Hi].
  destruct (Forall2_lookup_r _ _ _ _ _ Hr Hi) as (v & _ & Hv).
  by apply js_slot_not_vacant in Hv.
Qed.

Lemma restore_synced w :
  synced w → Vacant ∉ messages (state w) →
  restore (storage w) = Some (messages (state w)).
Proof.
  intros Hs Hv. rewrite <- (insert_id _ _ _ Hs).
  by apply (restore_persist (messages (state w)) (state w)).
Qed.

Lemma act_keeps_slots_filled a w :
  enabled a w = true →
  (Vacant ∉ messages (state w)) ∧ resumes_submit w →
  (Vacant ∉ messages (state (act a w))) ∧ resumes_submit (act a w).
Proof.
  intros Hen [Hv Hres]. destruct a; simpl in Hen; try done.
  - unfold act, handleSubmit.
    destruct (negb _ || _); [done|]. simpl. split.
    + rewrite elem_of_app, list_elem_of_singleton. by intros [?|?].
    + apply Forall_app. split; [done|]. by apply Forall_singleton.
  - unfold act. destruct (in_flight w !! i) as [[req k]|] eqn:Hi; [|done].
    pose proof (Forall_lookup_1 _ _ _ _ Hres Hi) as Hk. simpl in Hk. subst k.
    simpl. split.
    + rewrite elem_of_app, list_elem_of_singleton. by intros [?|?].
    + by apply Forall_delete.
  - apply is_assistant_Some in Hen as (m & Hm & Hrole).
    split; [|done].
    change (messages (state (act (ClickHelpful idx) w)))
      with (messages (handleFeedback idx thumbsUp (state w))).
    rewrite (handleFeedback_thumbsUp _ _ _ Hm).
    intros Hin. apply list_elem_of_lookup in Hin as [j Hj].
    apply list_lookup_insert_Some in Hj as [(_ & Heq & _)|[_ Hj]]; [done|].
    apply Hv. apply list_elem_of_lookup. eauto.
  - destruct confirmed; [|done]. split; [|done]. apply not_elem_of_nil.
Qed.

(** X12. Restarting the page. In every state reached through the view
    from a mount, mounting the page anew on the [localStorage] of that
    state succeeds and starts with the transcript of that state; the new
    page is not loading and has no call in flight, so a reply that was
    awaited at the restart is never appended. *)
Theorem transcript_survives_restart (ls : gmap string string) (w0 w : World) :
  mount ls = Some w0 → reachable w0 w →
  ∃ w', mount (storage w) = Some w' ∧
        messages (state w') = messages (state w) ∧
        loading (state w') = false ∧ in_flight w' = [].
Proof.
  intros Hmount Hreach.
  pose proof (mount_world _ _ Hmount) as (Hrestore & Hs0 & Hf0 & _).
  assert (Hinv : synced w ∧ (Vacant ∉ messages (state w)) ∧ resumes_submit w).
  { induction Hreach as [|a w1 _ IH Hen].
    - split; [done|]. split; [by eapply restore_not_vacant|].
      unfold resumes_submit. rewrite Hf0. constructor.
    - destruct IH as (Hs & Hv & Hr). split; [by apply act_synced|].
      by apply act_keeps_slots_filled. }
  destruct Hinv as (Hs & Hv & _).
  unfold mount. rewrite (restore_synced w Hs Hv). eexists. split; [reflexivity|].
  done.
Qed.

Lemma transcript_survives_restart_witness :
  ∃ w', mount
          (storage
             (act SubmitForm
                (act (ChangeInput "What is the refund policy?")
                   (mkWorld (mkState [] "" false "English" false "" None ∅)
                            {["chatMessages" := "[]"]} [] [])))) = Some w' ∧
        messages (state w') = [Msg (user_message "What is the refund policy?")] ∧
        loading (state w') = false ∧ in_flight w' = [].
Proof.
  apply (transcript_survives_restart ∅
           (mkWorld (mkState [] "" false "English" false "" None ∅)
                    {["chatMessages" := "[]"]} [] [])
           (act SubmitForm
              (act (ChangeInput "What is the refund policy?")
                 (mkWorld (mkState [] "" false "English" false "" None ∅)
                          {["chatMessages" := "[]"]} [] [])))).
  - vm_compute. reflexivity.
  - repeat (apply reachable_step; [|reflexivity]). apply reachable_refl.
Defined.

(** X13. Clear Chat, confirmed: the transcript and the expansion flags
    are emptied, [localStorage] holds the text of the empty transcript
    under [chatMessages] and its other keys are untouched. A call in
    flight stays in flight: when it settles, its reply is appended to the
    emptied transcript, without the question it answers. Not confirmed,
    Clear Chat changes nothing. *)
Theorem clear_chat_keeps_call_in_flight (w : World) (req : ChatRequest)
  (r : ChatResult) :
  let w' := act (ClickClearChat true) w in
  messages (state w') = [] ∧ expandedSources (state w') = ∅ ∧
  storage w' !! "chatMessages" = Some "[]" ∧
  (∀ key, key ≠ "chatMessages" → storage w' !! key = storage w !! key) ∧
  restore (storage w') = Some [] ∧
  in_flight w' = in_flight w ∧ loading (state w') = loading (state w) ∧
  (in_flight w = [(req, handleSubmit_resume)] →
   messages (state (act (Settles 0 r) w')) = [Msg (reply r)] ∧
   loading (state (act (Settles 0 r) w')) = false) ∧
  act (ClickClearChat false) w = w.
Proof.
  intros w'.
  assert (Htext : storage w' !! "chatMessages" = Some "[]")
    by apply lookup_insert_eq.
  split; [done|]. split; [done|]. split; [exact Htext|]. split.
  { intros key Hkey. apply (act_other_keys (ClickClearChat true) w key Hkey). }
  split; [unfold restore; by rewrite Htext|].
  split; [done|]. split; [done|]. split; [|done].
  intros Hf. unfold act. simpl. by rewrite Hf.
Qed.

Lemma clear_chat_keeps_call_in_flight_witness :
  messages
    (state
       (act (Settles 0 (ChatOk "It is 30 days." None))
          (act (ClickClearChat true)
             (mkWorld (mkState [Msg (user_message "What is the refund policy?")]
                               "" true "English" false "" None ∅)
                      ∅
                      [(mkChatRequest "What is the refund policy?" "English",
                        handleSubmit_resume)]
                      [mkChatRequest "What is the refund policy?" "English"])))) =
  [Msg (mkMessage assistant "It is 30 days." None None)].
Proof.
  apply (clear_chat_keeps_call_in_flight
           (mkWorld (mkState [Msg (user_message "What is the refund policy?")]
                             "" true "English" false "" None ∅)
                    ∅
                    [(mkChatRequest "What is the refund policy?" "English",
                      handleSubmit_resume)]
                    [mkChatRequest "What is the refund policy?" "English"])
           (mkChatRequest "What is the refund policy?" "English")
           (ChatOk "It is 30 days." None)).
  reflexivity.
Defined.

(** *** The feedback dialog *)

Lemma dialog_action_frame a w :
  dialog_action a = true →
  messages (state (act a w)) = messages (state w) ∧
  storage (act a w) = storage w ∧ in_flight (act a w) = in_flight w ∧
  issued (act a w) = issued w.
Proof. destruct a; try discriminate; done. Qed.

(** X14. The thumbs-down button and the feedback dialog record nothing:
    whatever is done with them (opening the dialog on a message, ticking
    reasons, typing a note, Submit, Cancel), the transcript, [localStorage]
    and the calls are as before, so no message gets a [thumbsDown]; and
    Submit, like Cancel, closes the dialog and drops the text collected. *)
Theorem feedback_dialog_records_nothing (w : World) (acts : list Action) :
  Forall (λ a, dialog_action a = true) acts →
  messages (state (run_actions acts w)) = messages (state w) ∧
  storage (run_actions acts w) = storage w ∧
  in_flight (run_actions acts w) = in_flight w ∧
  issued (run_actions acts w) = issued w ∧
  feedbackText (state (act ClickSubmitFeedback (run_actions acts w))) = "" ∧
  selectedMessageIndex (state (act ClickSubmitFeedback (run_actions acts w))) = None ∧
  showFeedbackModal (state (act ClickSubmitFeedback (run_actions acts w))) = false.
Proof.
  intros Hall.
  assert (Hframe : messages (state (run_actions acts w)) = messages (state w) ∧
                   storage (run_actions acts w) = storage w ∧
                   in_flight (run_actions acts w) = in_flight w ∧
                   issued (run_actions acts w) = issued w).
  { revert w. induction Hall as [|a acts Ha _ IH]; intros w; [done|].
    simpl. destruct (IH (act a w)) as (-> & -> & -> & ->).
    by apply dialog_action_frame. }
  destruct Hframe as (? & ? & ? & ?). repeat split; done.
Qed.

Lemma feedback_dialog_records_nothing_witness :
  messages
    (state
       (run_actions
          [ClickNotHelpful 1;
           EditFeedback (λ prev, prev +:+ newline +:+ "Not factually correct");
           EditFeedback (λ _, "wrong number of days"); ClickSubmitFeedback]
          (mkWorld (mkState [Msg (user_message "q");
                             Msg (mkMessage assistant "a" None None)]
                            "" false "English" false "" None ∅) ∅ [] []))) =
  [Msg (user_message "q"); Msg (mkMessage assistant "a" None None)].
Proof.
  apply (feedback_dialog_records_nothing
           (mkWorld (mkState [Msg (user_message "q");
                              Msg (mkMessage assistant "a" None None)]
                             "" false "English" false "" None ∅) ∅ [] [])).
  repeat constructor.
Defined.

(** *** [handleFeedback] and the bounds of the transcript *)

(** X15. [handleFeedback] with [thumbsUp], at any index. Within the
    transcript it replaces the slot at the index and the length stays;
    past the end the transcript grows to reach the index, with empty
    slots between the old end and the index. In both cases the slot at the
    index is the old one with the feedback set (an object with the
    feedback alone when there was no message) and every other old slot is
    untouched. *)
Theorem handleFeedback_at_any_index (i : nat) (s : State) :
  let old := messages s in
  let new := messages (handleFeedback i thumbsUp s) in
  length new = Nat.max (length old) (S i) ∧
  new !! i = Some (with_feedback thumbsUp (old !! i)) ∧
  (∀ j, j ≠ i → j < length old → new !! j = old !! j) ∧
  (∀ j, length old ≤ j → j < i → new !! j = Some Vacant).
Proof.
  intros old new. unfold new. simpl. fold old.
  split; [|split; [apply assign_lookup|split]].
  - destruct (decide (i < length old)) as [Hlt|Hge].
    + rewrite assign_in_range, length_insert by done. lia.
    + rewrite assign_past_end by lia.
      rewrite !length_app, length_replicate. simpl. lia.
  - intros j Hj Hlt. destruct (decide (i < length old)) as [Hi|Hi].
    + rewrite assign_in_range by done. by rewrite list_lookup_insert_ne.
    + rewrite assign_past_end by lia. by rewrite lookup_app_l.
  - intros j Hge Hlt. rewrite assign_past_end by lia.
    rewrite lookup_app_r by done. rewrite lookup_app_l
      by (rewrite length_replicate; lia).
    apply lookup_replicate_2. lia.
Qed.

Lemma handleFeedback_at_any_index_witness :
  messages (handleFeedback 3 thumbsUp
              (mkState [Msg (user_message "q")] "" false "English"
                       false "" None ∅)) !! 2 = Some Vacant.
Proof.
  apply (handleFeedback_at_any_index 3
           (mkState [Msg (user_message "q")] "" false "English" false "" None ∅));
    simpl; lia.
Defined.

End ChatPage.

(** ** The reasons of the feedback dialog *)

Section Reasons.
Import JsString Chat.















End Reasons.

(** ** The saved keys *)

Section SavedKeysFacts.
Import JsString Async Settings.

Lemma or_else_truthy v default :
  truthy default = true → truthy (or_else v default) = true.
Proof. unfold or_else. by destruct (truthy v) eqn:E. Qed.

Lemma saveKeys_run_storage w r :
  ∃ w', settle r (saveKeys w) = Done w' ∧
        storage w' =
          if truthy (trim (openAiKey (state w))) &&
             truthy (trim (tavilyKey (state w))) && succeeded r
          then <["tavilyKey" := trim (tavilyKey (state w))]>
                 (<["openAiKey" := trim (openAiKey (state w))]> (storage w))
          else storage w.
Proof.
  unfold saveKeys.
  destruct (truthy (trim (openAiKey (state w))));
    [destruct (truthy (trim (tavilyKey (state w))))|]; simpl; eauto.
  destruct r as [reason|[|] [detail|reason]]; simpl; eauto.
Qed.

(** X17. The keys shown on the Settings page. When [saveKeys] ends with
    the keys validated, the saved keys in memory are the two trimmed keys,
    they are the ones a page mounted later finds in [localStorage], the
    success message is shown and no error. When it ends otherwise (blank
    key, error response, network failure) the saved keys in memory and
    [localStorage] are as before, an error text is shown and no success
    message. The two inputs keep what was typed in every case. *)
Theorem saved_keys_shown (w : World) (r : FetchResult) :
  let o := trim (openAiKey (state w)) in
  let t := trim (tavilyKey (state w)) in
  ∃ w', settle r (saveKeys w) = Done w' ∧
    (truthy o && truthy t && succeeded r = true →
     savedKeys (state w') = mkSavedKeys o t ∧
     savedKeys (state (mount (storage w'))) = mkSavedKeys o t ∧
     message (state w') = "API keys validated and saved successfully!" ∧
     error (state w') = "") ∧
    (truthy o && truthy t && succeeded r = false →
     savedKeys (state w') = savedKeys (state w) ∧ storage w' = storage w ∧
     truthy (error (state w')) = true ∧ message (state w') = "") ∧
    openAiKey (state w') = openAiKey (state w) ∧
    tavilyKey (state w') = tavilyKey (state w).
Proof.
  intros o t. unfold saveKeys. fold o t.
  destruct (truthy o) eqn:Ho; [destruct (truthy t) eqn:Ht|]; simpl.
  - destruct r as [reason|[|] [detail|reason]]; simpl; eexists;
      (split; [reflexivity|]); simpl; fold o t;
      (split; [|split; [|split; done]]);
      intros Hc; try discriminate Hc; repeat split; try done;
      first [ by apply or_else_truthy
            | unfold getItem_or_empty;
              rewrite lookup_insert_eq, lookup_insert_ne by done;
              by rewrite lookup_insert_eq ].
  - eexists. split; [reflexivity|]. simpl.
    split; [discriminate|]. split; [|done]. intros _. repeat split; done.
  - eexists. split; [reflexivity|]. simpl.
    split; [discriminate|]. split; [|done]. intros _. repeat split; done.
Qed.

Lemma saved_keys_shown_witness :
  ∃ w', settle (FetchResponse true (BodyJson None))
          (saveKeys (mkWorld (mkState " sk-new " "tvly-new" "" "" (mkSavedKeys "" ""))
                             ∅)) = Done w' ∧
        savedKeys (state (mount (storage w'))) = mkSavedKeys "sk-new" "tvly-new".
Proof.
  destruct (saved_keys_shown
              (mkWorld (mkState " sk-new " "tvly-new" "" "" (mkSavedKeys "" "")) ∅)
              (FetchResponse true (BodyJson None)))
    as (w' & Hrun & Hok & _).
  exists w'. split; [exact Hrun|].
  destruct (Hok eq_refl) as (_ & Hmount & _). exact Hmount.
Defined.

(** X18. The keys sent with a request. After [saveKeys] has ended with
    the keys validated, the interceptor puts the two trimmed keys in the
    headers of every request; after it has ended otherwise, the
    interceptor attaches what it attached before. The interceptor touches
    no other header, and with no key stored it leaves the headers as they
    are. *)
Theorem keys_reach_requests_after_save (w : World) (r : FetchResult)
  (headers : gmap string string) :
  let o := trim (openAiKey (state w)) in
  let t := trim (tavilyKey (state w)) in
  ∃ w', settle r (saveKeys w) = Done w' ∧
    (truthy o && truthy t && succeeded r = true →
     Api.attach_keys (storage w') headers !! "X-OpenAI-Key" = Some o ∧
     Api.attach_keys (storage w') headers !! "X-Tavily-Key" = Some t) ∧
    (truthy o && truthy t && succeeded r = false →
     Api.attach_keys (storage w') headers = Api.attach_keys (storage w) headers) ∧
    (∀ h, h ≠ "X-OpenAI-Key" → h ≠ "X-Tavily-Key" →
          Api.attach_keys (storage w') headers !! h = headers !! h) ∧
    Api.attach_keys ∅ headers = headers.
Proof.
  intros o t.
  destruct (saveKeys_run_storage w r) as (w' & Hrun & Hst). fold o t in Hst.
  exists w'. split; [exact Hrun|].
  split; [|split; [|split; [|done]]].
  - intros Hok. rewrite Hok in Hst. rewrite Hst.
    apply andb_prop in Hok as [[Ho Ht]%andb_prop _].
    unfold Api.attach_keys.
    rewrite lookup_insert_eq.
    rewrite (lookup_insert_ne _ "tavilyKey" "openAiKey") by done.
    rewrite lookup_insert_eq. cbv beta iota. rewrite Ho, Ht.
    rewrite lookup_insert_eq. rewrite lookup_insert_ne by done.
    by rewrite lookup_insert_eq.
  - intros Hno. rewrite Hno in Hst. by rewrite Hst.
  - intros h Ho Ht. unfold Api.attach_keys.
    destruct (storage w' !! "tavilyKey") as [tk|];
      destruct (storage w' !! "openAiKey") as [ok|];
      repeat match goal with
             | |- context [truthy ?k] => destruct (truthy k)
             end;
      rewrite ?lookup_insert_ne by done; done.
Qed.

Lemma keys_reach_requests_after_save_witness :
  ∃ w', settle (FetchResponse true (BodyJson None))
          (saveKeys (mkWorld (mkState " sk-new " "tvly-new" "" "" (mkSavedKeys "" ""))
                             ∅)) = Done w' ∧
        Api.attach_keys (storage w') ∅ !! "X-OpenAI-Key" = Some "sk-new" ∧
        Api.attach_keys (storage w') ∅ !! "X-Tavily-Key" = Some "tvly-new".
Proof.
  destruct (keys_reach_requests_after_save
              (mkWorld (mkState " sk-new " "tvly-new" "" "" (mkSavedKeys "" "")) ∅)
              (FetchResponse true (BodyJson None)) ∅)
    as (w' & Hrun & Hok & _).
  exists w'. split; [exact Hrun|]. apply Hok. reflexivity.
Defined.

(** *** [maskApiKey] *)

Lemma length_append (a b : string) :
  String.length (a +:+ b) = String.length a + String.length b.
Proof. induction a as [|c a IH]; [done|]. rewrite append_cons. simpl. by rewrite IH. Qed.

Lemma take_drop_units n s : take_units n s +:+ drop_units n s = s.
Proof.
  revert s. induction n as [|n IH]; intros [|c s]; try done.
  simpl. by rewrite append_cons, IH.
Qed.

Lemma length_take_units n s :
  n ≤ String.length s → String.length (take_units n s) = n.
Proof.
  revert s. induction n as [|n IH]; intros [|c s] Hn; simpl in *; try done; try lia.
  rewrite IH; lia.
Qed.

Lemma length_drop_units n s :
  String.length (drop_units n s) = String.length s - n.
Proof. revert s. induction n as [|n IH]; intros [|c s]; simpl; try done. Qed.

Lemma drop_units_add a b s : drop_units (a + b) s = drop_units b (drop_units a s).
Proof.
  revert s. induction a as [|a IH]; intros s; [done|].
  destruct s as [|c s]; simpl; [by destruct b|]. apply IH.
Qed.

Lemma length_repeat_unit c n : String.length (repeat_unit c n) = n.
Proof. induction n as [|n IH]; simpl; [done|]. by rewrite IH. Qed.

(** X19. [maskApiKey]. A key of at most seven code units is shown as
    bullets only, as many as it has code units (none for the empty key).
    A longer key is shown as its first three code units, three dots and
    its last four: the part between them, which is never empty, is not
    shown. The mask is never longer than ten code units. *)
Theorem maskApiKey_hides_the_middle (bullet : ascii) (key : string) :
  (String.length key ≤ 7 →
   maskApiKey bullet key = repeat_unit bullet (String.length key)) ∧
  (7 < String.length key →
   ∃ first middle rest,
     key = first +:+ middle +:+ rest ∧
     String.length first = 3 ∧ String.length rest = 4 ∧ middle ≠ "" ∧
     maskApiKey bullet key = first +:+ "..." +:+ rest) ∧
  String.length (maskApiKey bullet key) ≤ 10.
Proof.
  assert (Hshort : String.length key ≤ 7 →
                   maskApiKey bullet key = repeat_unit bullet (String.length key)).
  { intros Hlen. unfold maskApiKey. destruct key as [|c key]; [done|].
    simpl truthy. simpl negb. cbv iota.
    by rewrite (proj2 (Nat.leb_le _ _) Hlen). }
  assert (Hlong : 7 < String.length key →
    ∃ first middle rest,
      key = first +:+ middle +:+ rest ∧
      String.length first = 3 ∧ String.length rest = 4 ∧ middle ≠ "" ∧
      maskApiKey bullet key = first +:+ "..." +:+ rest).
  { intros Hlen.
    exists (take_units 3 key),
           (take_units (String.length key - 7) (drop_units 3 key)),
           (last_units 4 key).
    assert (Hrest : last_units 4 key =
                    drop_units (String.length key - 7) (drop_units 3 key)).
    { unfold last_units. rewrite <- drop_units_add. f_equal. lia. }
    split; [by rewrite Hrest, !take_drop_units|].
    split; [apply length_take_units; lia|].
    split; [unfold last_units; rewrite length_drop_units; lia|].
    split.
    - intros Hmid.
      pose proof (length_take_units (String.length key - 7) (drop_units 3 key)) as Hl.
      rewrite length_drop_units, Hmid in Hl. simpl in Hl. lia.
    - unfold maskApiKey. destruct key as [|c key]; [simpl in Hlen; lia|].
      simpl truthy. simpl negb. cbv iota.
      by rewrite (proj2 (Nat.leb_gt _ _) Hlen). }
  split; [done|]. split; [done|].
  destruct (decide (String.length key ≤ 7)) as [Hle|Hgt].
  - rewrite Hshort, length_repeat_unit by done. lia.
  - destruct Hlong as (first & middle & rest & _ & Hf & Hr & _ & ->); [lia|].
    rewrite !length_append, Hf, Hr. simpl. lia.
Qed.

Lemma maskApiKey_hides_the_middle_witness :
  maskApiKey "*" "sk-1234" = "*******" ∧
  ∃ first middle rest,
    "sk-proj-0123456789" = first +:+ middle +:+ rest ∧ middle ≠ "" ∧
    maskApiKey "*" "sk-proj-0123456789" = first +:+ "..." +:+ rest.
Proof.
  split.
  - apply (maskApiKey_hides_the_middle "*" "sk-1234"). simpl. lia.
  - destruct (maskApiKey_hides_the_middle "*" "sk-proj-0123456789") as (_ & H & _).
    destruct H as (first & middle & rest & Hkey & _ & _ & Hmid & Hmask);
      [simpl; lia|].
    by exists first, middle, rest.
Defined.

Example maskApiKey_sample :
  maskApiKey "*" "sk-proj-0123456789" = "sk-...6789".
Proof. reflexivity. Qed.

End SavedKeysFacts.

(** ** The export and the replies *)

Section ExportAndReplies.
Import JsString Async Chat.

Lemma mapM_cons_eq {A B} (f : A → option B) (a : A) (l : list A) :
  mapM f (a :: l) = y ← f a; k ← mapM f l; Some (y :: k).
Proof. reflexivity. Qed.

Lemma mapM_insert_same {A B} (f : A → option B) (l : list A) i x y :
  l !! i = Some x → f y = f x → mapM f (<[i := y]> l) = mapM f l.
Proof.
  revert i. induction l as [|a l IH]; intros [|i] Hx Hf; try done.
  - injection Hx as ->.
    change (<[0 := y]> (x :: l)) with (y :: l). by rewrite !mapM_cons_eq, Hf.
  - change (<[S i := y]> (a :: l)) with (a :: <[i := y]> l).
    by rewrite !mapM_cons_eq, (IH i).
Qed.

(** X20. The export. For a transcript of messages it is the texts of the
    messages, in order, one after the other. Feedback is not part of it:
    the Helpful button leaves the export as it was, and so do the sources
    button, the thumbs-down button and the feedback dialog. *)
Theorem export_ignores_feedback (g : Glyphs) (w : World) (a : Action)
  (msgs : list Message) :
  (messages (state w) = map Msg msgs →
   chatContent g (state w) = Some (join "" (map (message_text g) msgs))) ∧
  (enabled a w = true →
   (∃ idx, a = ClickHelpful idx ∨ a = ClickViewSources idx) ∨
   dialog_action a = true →
   chatContent g (state (act a w)) = chatContent g (state w)).
Proof.
  split.
  - intros Hm. unfold chatContent. rewrite Hm.
    assert (Hall : mapM (slot_text g) (map Msg msgs) =
                   Some (map (message_text g) msgs)).
    { clear Hm. induction msgs as [|m msgs IH]; [done|].
      change (map Msg (m :: msgs)) with (Msg m :: map Msg msgs).
      by rewrite mapM_cons_eq, IH. }
    by rewrite Hall.
  - intros Hen [[idx [-> | ->]]|Hd].
    + simpl in Hen. apply is_assistant_Some in Hen as (m & Hm & _).
      unfold chatContent.
      change (messages (state (act (ClickHelpful idx) w)))
        with (messages (handleFeedback idx thumbsUp (state w))).
      rewrite (handleFeedback_thumbsUp _ _ _ Hm).
      by rewrite (mapM_insert_same _ _ _ (Msg m)).
    + done.
    + unfold chatContent. by destruct a.
Qed.

Lemma export_ignores_feedback_witness :
  chatContent (mkGlyphs "P" "R" "D" "W")
    (state
       (act (ClickHelpful 1)
          (mkWorld (mkState [Msg (user_message "q");
                             Msg (mkMessage assistant "a" None None)]
                            "" false "English" false "" None ∅) ∅ [] []))) =
  chatContent (mkGlyphs "P" "R" "D" "W")
    (mkState [Msg (user_message "q"); Msg (mkMessage assistant "a" None None)]
             "" false "English" false "" None ∅).
Proof.
  apply (export_ignores_feedback (mkGlyphs "P" "R" "D" "W")
           (mkWorld (mkState [Msg (user_message "q");
                              Msg (mkMessage assistant "a" None None)]
                             "" false "English" false "" None ∅) ∅ [] [])
           (ClickHelpful 1) []).
  - reflexivity.
  - left. exists 1. by left.
Defined.

Lemma errorMessage_truthy e : truthy (errorMessage e) = true.
Proof.
  destruct e as [status [d|]|]; simpl; try done.
  - destruct (status =? 401)%Z; [done|]. by destruct (truthy d) eqn:E.
  - by destruct (status =? 401)%Z.
Qed.

(** X21. A call that fails is answered and does not block the page. When
    the one call in flight is rejected, an assistant message is appended
    whose text is the error message, never empty, and which has neither
    sources nor feedback; a 401 response gives the hint to add the API
    keys whatever its detail. The page stops loading, no call is left in
    flight, and the next question that is not blank is sent, with the
    language then selected. *)
Theorem failed_call_is_answered (w : World) (req : ChatRequest) (e : ChatError)
  (q : string) (detail : option string) :
  in_flight w = [(req, handleSubmit_resume)] →
  let w' := act (Settles 0 (ChatErr e)) w in
  messages (state w') =
    messages (state w) ++ [Msg (mkMessage assistant (errorMessage e) None None)] ∧
  truthy (errorMessage e) = true ∧
  errorMessage (ErrStatus 401 detail) =
    "Please add your API keys in the Settings page first." ∧
  loading (state w') = false ∧ in_flight w' = [] ∧
  (trim q ≠ "" →
   pending (handleSubmit (setInput q (state w'))) =
   Some (mkChatRequest (trim q) (language (state w)))).
Proof.
  intros Hf w'. unfold w', act. rewrite Hf. simpl.
  split; [done|]. split; [apply errorMessage_truthy|]. split; [done|].
  split; [done|]. split; [done|].
  intros Hq. rewrite handleSubmit_asks by done. done.
Qed.

Lemma failed_call_is_answered_witness :
  messages
    (state
       (act (Settles 0 (ChatErr (ErrStatus 500 None)))
          (mkWorld (mkState [Msg (user_message "q")] "" true "English"
                            false "" None ∅) ∅
                   [(mkChatRequest "q" "English", handleSubmit_resume)]
                   [mkChatRequest "q" "English"]))) =
  [Msg (user_message "q");
   Msg (mkMessage assistant "Sorry, I encountered an error. Please try again."
                  None None)].
Proof.
  apply (failed_call_is_answered
           (mkWorld (mkState [Msg (user_message "q")] "" true "English"
                             false "" None ∅) ∅
                    [(mkChatRequest "q" "English", handleSubmit_resume)]
                    [mkChatRequest "q" "English"])
           (mkChatRequest "q" "English") (ErrStatus 500 None) "" None).
  reflexivity.
Defined.

Lemma upload_or_else_truthy o default :
  truthy default = true → truthy (Upload.or_else o default) = true.
Proof.
  intros Hd. unfold Upload.or_else. destruct o as [v|]; [|done].
  by destruct (truthy v) eqn:E.
Qed.

(** X22. The message of a batch that fails is never empty, so the page
    shows it: it is the detail of the error response when it has one, else
    its message, else, and when the request got no response or could not
    be sent, a fixed text or the text of the failure. *)
Theorem aborted_batch_shows_a_message (s : Upload.State)
  (before after : list Upload.File) (failing : Upload.File)
  (oks : list (list Upload.ProgressEvent * Upload.UploadResponse))
  (evs : list Upload.ProgressEvent) (error : Upload.AxiosError)
  (more : list Upload.Outcome) :
  Upload.files s = before ++ failing :: after →
  length oks = length before →
  ∃ log s',
    Upload.run (map Upload.succeeds oks ++ Upload.fails evs error :: more)
               (Upload.handleUpload s) = (log, Done s', more) ∧
    Upload.message s' = Upload.errorMessage error ∧
    truthy (Upload.message s') = true ∧
    (∀ d m, error = Upload.ErrResponse (Some d) m → truthy d = true →
            Upload.message s' = d) ∧
    (∀ m, error = Upload.ErrResponse None (Some m) → truthy m = true →
          Upload.message s' = m).
Proof.
  intros Hfiles Hlen.
  rewrite (run_aborted _ _ _ _ _ _ _ _ Hfiles Hlen).
  eexists _, _. split; [reflexivity|].
  match goal with
  | |- context [Upload.message ?t] =>
      change (Upload.message t) with (Upload.errorMessage error)
  end.
  split; [done|]. split; [|split].
  - destruct error as [d m| |m]; unfold Upload.errorMessage; try done;
      repeat apply upload_or_else_truthy; done.
  - intros d m -> Hd. simpl. by rewrite Hd.
  - intros m -> Hm. simpl. by rewrite Hm.
Qed.

Lemma aborted_batch_shows_a_message_witness :
  ∃ log s',
    Upload.run [Upload.fails [] (Upload.ErrResponse (Some "Unsupported file") None)]
               (Upload.handleUpload
                  (Upload.mkState [Upload.mkFile "a.pdf" 1024] false "" ∅ ∅ [] false)) =
      (log, Done s', []) ∧
    Upload.message s' = "Unsupported file".
Proof.
  destruct (aborted_batch_shows_a_message
    (Upload.mkState [Upload.mkFile "a.pdf" 1024] false "" ∅ ∅ [] false)
    [] [] (Upload.mkFile "a.pdf" 1024) [] []
    (Upload.ErrResponse (Some "Unsupported file") None) [] eq_refl eq_refl)
    as (log & s' & Hrun & _ & _ & Hd & _).
  exists log, s'. split; [exact Hrun|]. by apply (Hd "Unsupported file" None).
Defined.

End ExportAndReplies.
